(** * audo-p2p-tracker: the bootstrap server of [app.js]

    A shallow embedding of the TCP bootstrap server: the guard chain of the
    connection handler (ban check, global counter, per-IP window, auto-ban),
    the per-socket [timeout] and [data] handlers, the peer registry with its
    stale-peer sweep, the geo lookup and the haversine ranking of the
    [register] response.

    Modelling choices.
    - [Date.now()] values are integers ([Z]).
    - A JavaScript object used as a table whose iteration order is observed
      ([peerRecord], through [Object.entries]) is an insertion-ordered
      association list; the tables only read by key ([clientRecord],
      [banList]) are finite maps.
    - Numbers are IEEE 754 doubles ([float], the binary64 numbers of
      Rocq's kernel): coordinates, and every intermediate value of
      [distance].  Sums, differences, products and quotients are the
      IEEE operations.  The results of [Math.sin], [Math.cos], [Math.sqrt],
      [Math.atan2] and [**], which ECMAScript leaves to the implementation,
      are those of the [Math] object the server runs on, a parameter of the
      model ([MathObject]).
    - [Array.prototype.sort] is a stable insertion sort; a comparator
      result that is NaN counts as zero, as in ECMAScript's SortCompare.
      For a comparator that is not a consistent ordering ECMAScript leaves
      the order to the implementation; what is proved of the sorted list
      for all runs is free of its order: its elements and its length.
    - The event loop is a transition system: every callback of [app.js] is
      one event, and an [await] splits a callback in two events.  What the
      runtime or an external service answers ([JSON.parse], the ipapi.co
      request) is carried by the event that resumes the callback.
    - [sock.write] calls are recorded in order, each with the information
      whether [sock.end] had already been called on that socket. *)

From Stdlib Require Import ZArith Floats.PrimFloat Ascii String.
From stdpp Require Import gmap strings list fin_maps sorting.

Open Scope string_scope.
Open Scope list_scope.
Open Scope Z_scope.

(** ** Status and error codes *)

Record Status := { code : Z; message : string }.

Module STATUS_CODES.
Definition SUCCESS_REGISTER := {| code := 1000; message := "Registration successful" |}.
Definition SUCCESS_UNREGISTER := {| code := 1001; message := "Unregistered successfully" |}.
Definition SUCCESS_HEARTBEAT := {| code := 1002; message := "Heartbeat acknowledged" |}.
Definition ERROR_UNKNOWN_ACTION := {| code := 2000; message := "Unknown action" |}.
Definition ERROR_INVALID_JSON := {| code := 2001; message := "Invalid JSON" |}.
Definition ERROR_RATE_LIMIT := {| code := 2002; message := "Too many requests, slow down." |}.
Definition ERROR_GLOBAL_DOS := {| code := 2003; message := "Global rate limit exceeded" |}.
Definition ERROR_PAYLOAD_TOO_LARGE := {| code := 2004; message := "Payload too large" |}.
Definition ERROR_IDLE_TIMEOUT := {| code := 2005; message := "Idle timeout" |}.
Definition ERROR_GEO_LOOKUP_FAILED := {| code := 2006; message := "Geolocation lookup failed" |}.
End STATUS_CODES.
Import STATUS_CODES.

(** ** Rate limiting and anti-DoS settings *)

Definition RATE_LIMIT : nat := 5.
Definition WINDOW_MS : Z := 60 * 1000.
Definition MAX_CONN_PER_SECOND : Z := 100.
Definition RESPONSE_PEER_LIMIT : nat := 20.
Definition PEER_TIMEOUT_MS : Z := 5 * 60 * 1000.
Definition MAX_PAYLOAD : nat := 2048.

Inductive LogFile := ERROR_LOG | REQUEST_LOG | SLOW_IP_LOG | ABUSIVE_IP_LOG | BANNED_IP_LOG.

(** ** Data model *)

Record Geo := { latitude : float; longitude : float }.

Record PeerInfo := { geo : Geo; firstSeen : Z; lastSeen : Z }.

(** [peerRecord]: keys in insertion order, as [Object.entries] lists them. *)
Abbreviation PeerTable := (list (string * PeerInfo)).

(** One element of the [peers] array: [{ ip: k, ...v.geo }]. *)
Record PeerEntry := { entry_ip : string; entry_geo : Geo }.

Record ExtraBody := { yourIP : string; peers : list PeerEntry }.

(** The object [buildResponse] serialises; [info.timestamp] is the wall
    clock at the time of the call and is left out. *)
Record Response := {
  serverVersion : string;
  statusCode : Z;
  resp_message : string;
  extraBody : option ExtraBody }.

Definition buildResponse (statusObj : Status) (extra : option ExtraBody) : Response :=
  {| serverVersion := "v1.0";
     statusCode := code statusObj;
     resp_message := message statusObj;
     extraBody := extra |}.

(** The state a connection callback closes over: [ip], [now], [dataBuffer],
    and the socket flags the callbacks depend on. *)
Record Session := {
  remoteAddress : string;
  connectedAt : Z;
  listening : bool;     (* the timeout/data/error handlers are attached *)
  ended : bool;         (* sock.end() has been called *)
  dataBuffer : string;
  delayed : nat;        (* data callbacks suspended in the FLOOD_DELAY await *)
  awaitingGeo : nat     (* data callbacks suspended in [await getGeo(ip)] *)
}.

(** One call of [sock.write]. *)
Record WriteCall := { w_conn : nat; w_afterEnd : bool; w_resp : Response }.

Record Server := {
  peerRecord : PeerTable;
  clientRecord : gmap string (list Z);
  banList : gmap string Z;
  globalRequestCount : Z;
  sessions : list Session;
  wire : list WriteCall;
  logs : list (LogFile * string) }.

Definition init : Server :=
  {| peerRecord := []; clientRecord := ∅; banList := ∅; globalRequestCount := 0;
     sessions := []; wire := []; logs := [] |}.

(** ** The peer table as an insertion-ordered object *)

Fixpoint pr_get (ip : string) (pr : PeerTable) : option PeerInfo :=
  match pr with
  | [] => None
  | (k, v) :: rest => if decide (k = ip) then Some v else pr_get ip rest
  end.

(** [peerRecord[ip] = v]: an existing key keeps its place, a new key goes last. *)
Fixpoint pr_set (ip : string) (v : PeerInfo) (pr : PeerTable) : PeerTable :=
  match pr with
  | [] => [(ip, v)]
  | (k, w) :: rest => if decide (k = ip) then (k, v) :: rest else (k, w) :: pr_set ip v rest
  end.

(** [delete peerRecord[ip]] *)
Definition pr_delete (ip : string) (pr : PeerTable) : PeerTable :=
  filter (λ e, e.1 ≠ ip) pr.

(** ** State updates *)

Definition set_peerRecord (pr : PeerTable) (st : Server) : Server :=
  {| peerRecord := pr; clientRecord := clientRecord st; banList := banList st;
     globalRequestCount := globalRequestCount st; sessions := sessions st;
     wire := wire st; logs := logs st |}.

Definition set_clientRecord (cr : gmap string (list Z)) (st : Server) : Server :=
  {| peerRecord := peerRecord st; clientRecord := cr; banList := banList st;
     globalRequestCount := globalRequestCount st; sessions := sessions st;
     wire := wire st; logs := logs st |}.

Definition set_banList (bl : gmap string Z) (st : Server) : Server :=
  {| peerRecord := peerRecord st; clientRecord := clientRecord st; banList := bl;
     globalRequestCount := globalRequestCount st; sessions := sessions st;
     wire := wire st; logs := logs st |}.

Definition set_globalRequestCount (n : Z) (st : Server) : Server :=
  {| peerRecord := peerRecord st; clientRecord := clientRecord st; banList := banList st;
     globalRequestCount := n; sessions := sessions st;
     wire := wire st; logs := logs st |}.

Definition set_sessions (ss : list Session) (st : Server) : Server :=
  {| peerRecord := peerRecord st; clientRecord := clientRecord st; banList := banList st;
     globalRequestCount := globalRequestCount st; sessions := ss;
     wire := wire st; logs := logs st |}.

Definition set_wire (w : list WriteCall) (st : Server) : Server :=
  {| peerRecord := peerRecord st; clientRecord := clientRecord st; banList := banList st;
     globalRequestCount := globalRequestCount st; sessions := sessions st;
     wire := w; logs := logs st |}.

(** [appendLog(file, msg)]: the line without its timestamp prefix; rotation
    to the database does not change the server state and is left out. *)
Definition appendLog (file : LogFile) (msg : string) (st : Server) : Server :=
  {| peerRecord := peerRecord st; clientRecord := clientRecord st; banList := banList st;
     globalRequestCount := globalRequestCount st; sessions := sessions st;
     wire := wire st; logs := logs st ++ [(file, msg)] |}.

Definition update_session (c : nat) (f : Session → Session) (st : Server) : Server :=
  set_sessions (alter f c (sessions st)) st.

Definition is_ended (c : nat) (st : Server) : bool :=
  match sessions st !! c with Some s => ended s | None => false end.

Definition sock_write (c : nat) (r : Response) (st : Server) : Server :=
  set_wire (wire st ++ [{| w_conn := c; w_afterEnd := is_ended c st; w_resp := r |}]) st.

Definition mark_ended (s : Session) : Session :=
  {| remoteAddress := remoteAddress s; connectedAt := connectedAt s;
     listening := listening s; ended := true; dataBuffer := dataBuffer s;
     delayed := delayed s; awaitingGeo := awaitingGeo s |}.

Definition sock_end (c : nat) (st : Server) : Server := update_session c mark_ended st.

(** The calls of [sock.write] made on connection [c], in order. *)
Definition responses (c : nat) (st : Server) : list Response :=
  w_resp <$> filter (λ w, w_conn w = c) (wire st).

(** The responses written while the socket had not been ended yet. *)
Definition delivered (c : nat) (st : Server) : list Response :=
  w_resp <$> filter (λ w, w_conn w = c ∧ w_afterEnd w = false) (wire st).

(** ** Log files and their rotation *)

(** [appendLog] with the files it writes: the content of each log file,
    the rows of the [logs] table of [db/db.js] (file name and content; the
    timestamp column is left out), and the entries of [db.log] (one per
    failed offload, kept as the file it was about). *)
Module LogRotation.
Definition LOG_THRESHOLD : Z := 10 * 1024 * 1024.

Record LogStore := {
  content : LogFile → string;
  logsTable : list (string * string);
  dbLog : list LogFile }.

(** [path.basename] of the five log paths. *)
Definition basename (file : LogFile) : string :=
  match file with
  | ERROR_LOG => "errors.log"
  | REQUEST_LOG => "requests.log"
  | SLOW_IP_LOG => "slow_ips.log"
  | ABUSIVE_IP_LOG => "abusive_ips.log"
  | BANNED_IP_LOG => "banned_ips.log"
  end.

(** The size [fs.statSync] reports. *)
Definition size (data : string) : Z := Z.of_nat (String.length data).

Definition LogFile_eqb (f g : LogFile) : bool :=
  match f, g with
  | ERROR_LOG, ERROR_LOG | REQUEST_LOG, REQUEST_LOG | SLOW_IP_LOG, SLOW_IP_LOG
  | ABUSIVE_IP_LOG, ABUSIVE_IP_LOG | BANNED_IP_LOG, BANNED_IP_LOG => true
  | _, _ => false
  end.

(** [fs.writeFileSync(file, data)] *)
Definition writeFile (file : LogFile) (data : string) (ls : LogStore) : LogStore :=
  {| content := λ f, if LogFile_eqb f file then data else content ls f;
     logsTable := logsTable ls; dbLog := dbLog ls |}.

(** [saveLogsToDB(file)]: the function has no [await], so its body runs
    when it is called.  [ok] tells whether the [try] block went through
    (the file was read and the row inserted) or threw, in which case
    [logDBError] leaves a line in [db.log]. *)
Definition saveLogsToDB (ok : bool) (file : LogFile) (ls : LogStore) : LogStore :=
  if ok
  then {| content := content ls;
          logsTable := logsTable ls ++ [(basename file, content ls file)];
          dbLog := dbLog ls |}
  else {| content := content ls; logsTable := logsTable ls;
          dbLog := dbLog ls ++ [file] |}.

(** [appendLog(file, msg)] *)
Definition appendLog (ok : bool) (file : LogFile) (msg : string) (ls : LogStore) : LogStore :=
  let ls := writeFile file (content ls file +:+ msg) ls in
  if bool_decide (LOG_THRESHOLD < size (content ls file))
  then writeFile file "" (saveLogsToDB ok file ls)
  else ls.

(** A sequence of calls of [appendLog], each with the outcome of the
    offload it may trigger. *)
Definition appendAll (ops : list (bool * LogFile * string)) (ls : LogStore) : LogStore :=
  foldl (λ ls op, appendLog op.1.1 op.1.2 op.2 ls) ls ops.

(** What the table holds of one file, in the order of insertion. *)
Definition archived (file : LogFile) (rows : list (string * string)) : string :=
  foldr (λ row acc, if String.eqb row.1 (basename file) then row.2 +:+ acc else acc)
        "" rows.

(** What a sequence of calls appended to one file. *)
Definition appended (file : LogFile) (ops : list (bool * LogFile * string)) : string :=
  foldr (λ op acc, if LogFile_eqb op.1.2 file then op.2 +:+ acc else acc) "" ops.
End LogRotation.

(** ** Geo lookup *)

(** [isPrivateIP(ip)] *)
Definition isPrivateIP (ip : string) : bool :=
  String.prefix "127." ip || String.prefix "192.168." ip || String.prefix "10." ip
  || String.prefix "172." ip || bool_decide (ip = "::1").

(** What the request to ipapi.co did: it threw (network error, timeout,
    error status), or it answered with a body whose [latitude] and
    [longitude] fields are numbers or absent. *)
Inductive GeoReply :=
  | GeoThrows
  | GeoData (lat lon : option float).

(** Truthiness of a number: [0], [-0] and NaN are falsy. *)
Definition nonzero (x : float) : bool := negb (x =? 0)%float && negb (is_nan x).

(** Truthiness of a field that may be absent. *)
Definition truthy (x : option float) : bool :=
  match x with Some q => nonzero q | None => false end.

Definition dummyGeo : Geo := {| latitude := 0; longitude := 0 |}.

(** [getGeo(ip)]; the reply is only consulted for a non-private address. *)
Definition getGeo (ip : string) (reply : GeoReply) (st : Server) : option Geo * Server :=
  if isPrivateIP ip then (Some dummyGeo, st)
  else match reply with
       | GeoData (Some lat) (Some lon) =>
           if nonzero lat && nonzero lon
           then (Some {| latitude := lat; longitude := lon |}, st)
           else (None, st)
       | GeoData _ _ => (None, st)
       | GeoThrows => (None, appendLog ERROR_LOG ("Geo lookup failed for " ++ ip) st)
       end.

(** ** Numbers and the [Math] object *)

(** What [distance] asks of the platform beyond the four IEEE
    operations: [Math.sin], [Math.cos], [Math.sqrt], [Math.atan2] and the
    exponentiation operator [**] ([Number::exponentiate]).  ECMAScript
    fixes their results at special arguments only and otherwise leaves them
    to the implementation; engines differ in the last bits. *)
Class MathObject := {
  Math_sin : float → float;
  Math_cos : float → float;
  Math_sqrt : float → float;
  Math_atan2 : float → float → float;
  Number_exponentiate : float → float → float }.

(** [Math.PI], the double nearest to pi. *)
Definition Math_PI : float := 0x1.921fb54442d18p+1%float.

Section Tracker.
Context `{Math : MathObject}.

(** ** Haversine distance (km) *)

Section Haversine.
Local Open Scope float_scope.

Definition toRad (x : float) : float := x * Math_PI / 180.

Definition distance (a b : Geo) : float :=
  let R := 6371 in
  let dLat := toRad (latitude b - latitude a) in
  let dLon := toRad (longitude b - longitude a) in
  let aa := Number_exponentiate (Math_sin (dLat / 2)) 2
            + Math_cos (toRad (latitude a)) * Math_cos (toRad (latitude b))
              * Number_exponentiate (Math_sin (dLon / 2)) 2 in
  let c := 2 * Math_atan2 (Math_sqrt aa) (Math_sqrt (1 - aa)) in
  R * c.

(** The comparator handed to [peers.sort]. *)
Definition byDistance (geo : Geo) (a b : PeerEntry) : float :=
  distance (entry_geo a) geo - distance (entry_geo b) geo.
End Haversine.

(** ** [Array.prototype.sort] as a stable insertion sort *)

Section Sort.
Context {A : Type} (cmp : A → A → float).

(** [x] goes in front of the first element that does not compare below
    it; a comparison that yields NaN is no "below". *)
Fixpoint insert_sorted (x : A) (l : list A) : list A :=
  match l with
  | [] => [x]
  | y :: rest =>
      if (cmp y x <? 0)%float then y :: insert_sorted x rest else x :: y :: rest
  end.

Definition Array_sort (l : list A) : list A := foldr insert_sorted [] l.
End Sort.

(** ** The register response *)

(** [Object.entries(peerRecord).map(...).filter((v) => v.latitude && v.longitude)] *)
Definition rankable (pr : PeerTable) : list PeerEntry :=
  filter (λ v, nonzero (latitude (entry_geo v)) && nonzero (longitude (entry_geo v)) = true)
         ((λ e, {| entry_ip := e.1; entry_geo := geo e.2 |}) <$> pr).

Definition nearbyPeers (g : Geo) (pr : PeerTable) : list PeerEntry :=
  take RESPONSE_PEER_LIMIT (Array_sort (byDistance g) (rankable pr)).

(** Lines 293-326 with a truthy [geo]: store the record, answer with the
    ranked list. *)
Definition registerPeer (c : nat) (ip : string) (now : Z) (g : Geo) (st : Server) : Server :=
  let st := set_peerRecord
              (pr_set ip {| geo := g; firstSeen := now; lastSeen := now |} (peerRecord st)) st in
  let st := appendLog REQUEST_LOG ("Registered peer: " ++ ip) st in
  let sendPeers := nearbyPeers g (peerRecord st) in
  sock_write c (buildResponse SUCCESS_REGISTER
                  (Some {| yourIP := ip; peers := sendPeers |})) st.

(** ** The connection handler *)

Definition new_session (ip : string) (now : Z) : Session :=
  {| remoteAddress := ip; connectedAt := now; listening := false; ended := false;
     dataBuffer := ""; delayed := 0; awaitingGeo := 0 |}.

Definition attach (s : Session) : Session :=
  {| remoteAddress := remoteAddress s; connectedAt := connectedAt s;
     listening := true; ended := ended s; dataBuffer := "";
     delayed := delayed s; awaitingGeo := awaitingGeo s |}.

(** [!ip]: [undefined] and the empty string are falsy. *)
Definition falsy_ip (ip : option string) : bool :=
  match ip with None => true | Some s => bool_decide (s = "") end.

(** [banList[ip] > now] *)
Definition is_banned (bl : gmap string Z) (ip : string) (now : Z) : bool :=
  match bl !! ip with Some expiry => bool_decide (now < expiry) | None => false end.

Definition window_of (cr : gmap string (list Z)) (ip : string) : list Z :=
  default [] (cr !! ip).

(** Lines 229-230: the stored sequence is replaced by its in-window part. *)
Definition prune (ip : string) (now : Z) (st : Server) : Server :=
  set_clientRecord
    (<[ip := filter (λ ts, now - ts < WINDOW_MS) (window_of (clientRecord st) ip)]>
       (clientRecord st)) st.

(** [clientRecord[ip].push(now)] *)
Definition push (ip : string) (now : Z) (st : Server) : Server :=
  set_clientRecord
    (<[ip := window_of (clientRecord st) ip ++ [now]]> (clientRecord st)) st.

(** Lines 244-250. *)
Definition autoBan (ip : string) (now : Z) (st : Server) : Server :=
  if bool_decide (RATE_LIMIT * 3 < length (window_of (clientRecord st) ip))%nat
  then appendLog BANNED_IP_LOG ("Auto-banned IP: " ++ ip)
         (set_banList (<[ip := now + WINDOW_MS * 10]> (banList st)) st)
  else st.

(** [net.createServer((sock) => ...)]: the new socket gets the next
    connection number. *)
Definition onConnection (ip : option string) (now : Z) (st : Server) : Server :=
  let c := length (sessions st) in
  let addr := default "" ip in
  let st := set_sessions (sessions st ++ [new_session addr now]) st in
  if falsy_ip ip || is_banned (banList st) addr now then sock_end c st
  else
    let st := set_globalRequestCount (globalRequestCount st + 1) st in
    if bool_decide (MAX_CONN_PER_SECOND < globalRequestCount st) then
      let st := appendLog ABUSIVE_IP_LOG "Global rate limit reached" st in
      let st := sock_write c (buildResponse ERROR_GLOBAL_DOS None) st in
      sock_end c st
    else
      let st := prune addr now st in
      if bool_decide (RATE_LIMIT ≤ length (window_of (clientRecord st) addr))%nat then
        let st := appendLog ABUSIVE_IP_LOG ("IP rate limit exceeded: " ++ addr) st in
        let st := sock_write c (buildResponse ERROR_RATE_LIMIT None) st in
        let st := sock_end c st in
        push addr now st
      else
        let st := push addr now st in
        let st := autoBan addr now st in
        update_session c attach st.

(** ** The socket handlers *)

(** What [JSON.parse(dataBuffer.trim())] followed by the read of
    [msg.action] gave: an exception, or a message whose [action] is a
    string or something else. *)
Inductive Parsed :=
  | ParseError
  | Message (action : option string).

Definition append_data (data : string) (s : Session) : Session :=
  {| remoteAddress := remoteAddress s; connectedAt := connectedAt s;
     listening := listening s; ended := ended s; dataBuffer := dataBuffer s ++ data;
     delayed := delayed s; awaitingGeo := awaitingGeo s |}.

Definition set_delayed (n : nat) (s : Session) : Session :=
  {| remoteAddress := remoteAddress s; connectedAt := connectedAt s;
     listening := listening s; ended := ended s; dataBuffer := dataBuffer s;
     delayed := n; awaitingGeo := awaitingGeo s |}.

Definition set_awaitingGeo (n : nat) (s : Session) : Session :=
  {| remoteAddress := remoteAddress s; connectedAt := connectedAt s;
     listening := listening s; ended := ended s; dataBuffer := dataBuffer s;
     delayed := delayed s; awaitingGeo := n |}.

(** [sock.on("timeout", ...)] *)
Definition onTimeout (c : nat) (st : Server) : Server :=
  match sessions st !! c with
  | Some s =>
      if listening s then
        let st := appendLog SLOW_IP_LOG ("Idle timeout from " ++ remoteAddress s) st in
        let st := sock_write c (buildResponse ERROR_IDLE_TIMEOUT None) st in
        sock_end c st
      else st
  | None => st
  end.

(** [sock.on("data", ...)] up to the [await] of the flood delay. *)
Definition onData (c : nat) (data : string) (st : Server) : Server :=
  match sessions st !! c with
  | Some s =>
      if listening s then
        let st := update_session c (append_data data) st in
        if bool_decide (MAX_PAYLOAD < String.length (dataBuffer s ++ data))%nat then
          let st := appendLog ABUSIVE_IP_LOG ("Oversized payload from " ++ remoteAddress s) st in
          let st := sock_write c (buildResponse ERROR_PAYLOAD_TOO_LARGE None) st in
          sock_end c st
        else update_session c (λ s, set_delayed (S (delayed s)) s) st
      else st
  | None => st
  end.

(** The [try] block once the flood delay has elapsed, up to the response or
    to [await getGeo(ip)]; [finally] ends the socket. *)
Definition afterDelay (c : nat) (msg : Parsed) (st : Server) : Server :=
  match sessions st !! c with
  | Some s =>
      match delayed s with
      | O => st
      | S n =>
          let ip := remoteAddress s in
          let now := connectedAt s in
          let st := update_session c (set_delayed n) st in
          match msg with
          | ParseError =>
              let st := appendLog ABUSIVE_IP_LOG ("JSON parse error from " ++ ip) st in
              let st := sock_write c (buildResponse ERROR_INVALID_JSON None) st in
              sock_end c st
          | Message action =>
              if decide (action = Some "register") then
                match pr_get ip (peerRecord st) with
                | Some info => sock_end c (registerPeer c ip now (geo info) st)
                | None => update_session c (λ s, set_awaitingGeo (S (awaitingGeo s)) s) st
                end
              else if decide (action = Some "unregister") then
                let st := match pr_get ip (peerRecord st) with
                          | Some _ =>
                              appendLog REQUEST_LOG ("Unregistered peer: " ++ ip)
                                (set_peerRecord (pr_delete ip (peerRecord st)) st)
                          | None => st
                          end in
                sock_end c (sock_write c (buildResponse SUCCESS_UNREGISTER None) st)
              else if decide (action = Some "heartbeat") then
                let st := match pr_get ip (peerRecord st) with
                          | Some info =>
                              appendLog REQUEST_LOG ("Heartbeat from: " ++ ip)
                                (set_peerRecord
                                   (pr_set ip {| geo := geo info; firstSeen := firstSeen info;
                                                 lastSeen := now |} (peerRecord st)) st)
                          | None => st
                          end in
                sock_end c (sock_write c (buildResponse SUCCESS_HEARTBEAT None) st)
              else sock_end c (sock_write c (buildResponse ERROR_UNKNOWN_ACTION None) st)
          end
      end
  | None => st
  end.

(** The rest of the register branch once [getGeo(ip)] has settled. *)
Definition afterGeo (c : nat) (reply : GeoReply) (st : Server) : Server :=
  match sessions st !! c with
  | Some s =>
      match awaitingGeo s with
      | O => st
      | S n =>
          let ip := remoteAddress s in
          let now := connectedAt s in
          let st := update_session c (set_awaitingGeo n) st in
          let (g, st) := getGeo ip reply st in
          match g with
          | Some g => sock_end c (registerPeer c ip now g st)
          | None =>
              let st := sock_write c (buildResponse ERROR_GEO_LOOKUP_FAILED None) st in
              sock_end c (sock_end c st)
          end
      end
  | None => st
  end.

(** [sock.on("error", ...)] *)
Definition onError (c : nat) (st : Server) : Server :=
  match sessions st !! c with
  | Some s =>
      if listening s
      then appendLog ERROR_LOG ("Socket error from " ++ remoteAddress s) st
      else st
  | None => st
  end.

(** ** The timers *)

(** One turn of the loop of the stale-peer sweep. *)
Definition sweepEntry (now : Z) (st : Server) (e : string * PeerInfo) : Server :=
  if bool_decide (PEER_TIMEOUT_MS < now - lastSeen e.2) then
    let st := appendLog REQUEST_LOG ("Removing stale peer: " ++ e.1) st in
    set_peerRecord (pr_delete e.1 (peerRecord st)) st
  else st.

(** The sweep iterates over the entries present when it starts. *)
Definition sweep (now : Z) (st : Server) : Server :=
  foldl (sweepEntry now) st (peerRecord st).

(** ** The event loop *)

Inductive Event :=
  | Connection (ip : option string) (now : Z)
  | SockTimeout (c : nat)
  | SockData (c : nat) (data : string)
  | FloodDelayElapsed (c : nat) (msg : Parsed)
  | GeoSettled (c : nat) (reply : GeoReply)
  | SockError (c : nat)
  | CounterReset
  | Sweep (now : Z).

Definition step (st : Server) (e : Event) : Server :=
  match e with
  | Connection ip now => onConnection ip now st
  | SockTimeout c => onTimeout c st
  | SockData c data => onData c data st
  | FloodDelayElapsed c msg => afterDelay c msg st
  | GeoSettled c reply => afterGeo c reply st
  | SockError c => onError c st
  | CounterReset => set_globalRequestCount 0 st
  | Sweep now => sweep now st
  end.

Definition run (st : Server) (evs : list Event) : Server := foldl step st evs.

(** The states the server can be in. *)
Definition reachable (st : Server) : Prop := ∃ evs, st = run init evs.

(** * Vocabulary of the statements *)

(** ** What an event may write *)

(** A response of a successful register: the ranked list for the
    coordinate just stored under the caller's address. *)
Definition register_response (st' : Server) (r : Response) : Prop :=
  ∃ ip now g,
    r = buildResponse SUCCESS_REGISTER
          (Some {| yourIP := ip; peers := nearbyPeers g (peerRecord st') |})
    ∧ pr_get ip (peerRecord st') = Some {| geo := g; firstSeen := now; lastSeen := now |}.

(** Any other response: a status and nothing else. *)
Definition plain_response (r : Response) : Prop :=
  extraBody r = None ∧ statusCode r ≠ 1000.

(** Between [st] and [st'] one call of [sock.write] was made, and the
    socket it was made on is ended in [st']. *)
Definition one_write (st st' : Server) : Prop :=
  ∃ w, wire st' = wire st ++ [w]
       ∧ w_afterEnd w = is_ended (w_conn w) st
       ∧ is_ended (w_conn w) st' = true
       ∧ (plain_response (w_resp w) ∨ register_response st' (w_resp w)).

(** A socket that was ended is still there, and still ended. *)
Definition keeps_ended (l l' : list Session) : Prop :=
  ∀ c s, l !! c = Some s → ended s = true → ∃ s', l' !! c = Some s' ∧ ended s' = true.

(** Whoever has been written to has been ended. *)
Definition written_ended (st : Server) : Prop :=
  ∀ w, w ∈ wire st → is_ended (w_conn w) st = true.

(** ** How an event may change the registry *)

(** The test of the sweep. *)
Definition stale (now : Z) (e : string * PeerInfo) : Prop :=
  PEER_TIMEOUT_MS < now - lastSeen e.2.

#[global] Instance stale_dec now e : Decision (stale now e).
Proof. unfold stale. apply _. Defined.

(** The keys the sweep deletes while it walks the entries [l]. *)
Definition staleKeys (now : Z) (l : PeerTable) : list string := (filter (stale now) l).*1.

(** The table an event leaves behind: the one it found, or the one it found
    with the caller's record set (register, heartbeat) or deleted
    (unregister), or without the stale records (sweep). *)
Inductive registry_update (st : Server) : Event → PeerTable → Prop :=
  | ru_none e : registry_update st e (peerRecord st)
  | ru_register_known c s info :
      sessions st !! c = Some s →
      pr_get (remoteAddress s) (peerRecord st) = Some info →
      registry_update st (FloodDelayElapsed c (Message (Some "register")))
        (pr_set (remoteAddress s)
           {| geo := geo info; firstSeen := connectedAt s; lastSeen := connectedAt s |}
           (peerRecord st))
  | ru_register_new c s reply g :
      sessions st !! c = Some s →
      (getGeo (remoteAddress s) reply st).1 = Some g →
      registry_update st (GeoSettled c reply)
        (pr_set (remoteAddress s)
           {| geo := g; firstSeen := connectedAt s; lastSeen := connectedAt s |}
           (peerRecord st))
  | ru_heartbeat c s info :
      sessions st !! c = Some s →
      pr_get (remoteAddress s) (peerRecord st) = Some info →
      registry_update st (FloodDelayElapsed c (Message (Some "heartbeat")))
        (pr_set (remoteAddress s)
           {| geo := geo info; firstSeen := firstSeen info; lastSeen := connectedAt s |}
           (peerRecord st))
  | ru_unregister c s :
      sessions st !! c = Some s →
      registry_update st (FloodDelayElapsed c (Message (Some "unregister")))
        (pr_delete (remoteAddress s) (peerRecord st))
  | ru_sweep now :
      registry_update st (Sweep now)
        (filter (λ e, e.1 ∉ staleKeys now (peerRecord st)) (peerRecord st)).

(** ** Private addresses *)

(** Records kept under a private address carry the dummy coordinate. *)
Definition private_dummy (pr : PeerTable) : Prop :=
  ∀ ip info, (ip, info) ∈ pr → isPrivateIP ip = true → geo info = dummyGeo.

(** The response lists no private address. *)
Definition no_private_peers (w : WriteCall) : Prop :=
  ∀ body p, extraBody (w_resp w) = Some body → p ∈ peers body →
            isPrivateIP (entry_ip p) = false.

(** ** Runs without a register from one address *)

(** Connection [c] was made from [ip]. *)
Definition from_address (ip : string) (st : Server) (c : nat) : bool :=
  match sessions st !! c with
  | Some s => bool_decide (remoteAddress s = ip)
  | None => false
  end.

(** The event carries on a register request of a connection from [ip]:
    its dispatch after the flood delay, or the return of its lookup. *)
Definition registers (ip : string) (st : Server) (e : Event) : bool :=
  match e with
  | FloodDelayElapsed c (Message action) =>
      bool_decide (action = Some "register") && from_address ip st c
  | GeoSettled c _ => from_address ip st c
  | _ => false
  end.

(** No event of the run carries on a register request from [ip]. *)
Fixpoint no_register (ip : string) (st : Server) (evs : list Event) : bool :=
  match evs with
  | [] => true
  | e :: evs' => negb (registers ip st e) && no_register ip (step st e) evs'
  end.

(** [ip] is not an address of the ranked list the response carries. *)
Definition not_listed (ip : string) (w : WriteCall) : Prop :=
  ∀ body, extraBody (w_resp w) = Some body → ip ∉ entry_ip <$> peers body.

(** ** Sample runs and states *)

(** A burst of [n] connections from one source, one millisecond apart. *)
Definition burst (ip : string) (n : nat) : list Event :=
  (λ t, Connection (Some ip) (Z.of_nat t)) <$> seq 0 n.

(** A payload of [n] characters. *)
Definition payload (n : nat) : string := string_of_list_ascii (repeat "a"%char n).

(** Two chunks of a request that is not JSON, each followed by its own
    flood delay. *)
Definition twoChunks : list Event :=
  [Connection (Some "1.2.3.4") 0; SockData 0 "ab"; SockData 0 "cd";
   FloodDelayElapsed 0 ParseError; FloodDelayElapsed 0 ParseError].

(** The connection accepted from 8.8.8.8 at time 7, one chunk received,
    its data callback waiting in the flood delay. *)
Definition publicSession : Session :=
  {| remoteAddress := "8.8.8.8"; connectedAt := 7; listening := true; ended := false;
     dataBuffer := "{}"; delayed := 1; awaitingGeo := 0 |}.

(** The server after that connection and chunk, with an empty registry. *)
Definition oneRequest : Server :=
  {| peerRecord := []; clientRecord := {["8.8.8.8" := [7]]}; banList := ∅;
     globalRequestCount := 1; sessions := [publicSession]; wire := []; logs := [] |}.

Definition knownPeer : PeerInfo :=
  {| geo := {| latitude := 10; longitude := 10 |}; firstSeen := 1; lastSeen := 3 |}.

(** The same, with 8.8.8.8 registered before. *)
Definition secondRequest : Server :=
  {| peerRecord := [("8.8.8.8", knownPeer)]; clientRecord := {["8.8.8.8" := [7]]};
     banList := ∅; globalRequestCount := 1; sessions := [publicSession];
     wire := []; logs := [] |}.

(** The same, with two more peers, one of them on a private address. *)
Definition threePeers : Server :=
  {| peerRecord :=
       [("9.9.9.9", {| geo := {| latitude := 48; longitude := 2 |};
                       firstSeen := 1; lastSeen := 1 |});
        ("10.0.0.5", {| geo := dummyGeo; firstSeen := 2; lastSeen := 2 |});
        ("8.8.8.8", knownPeer)];
     clientRecord := {["8.8.8.8" := [7]]}; banList := ∅; globalRequestCount := 1;
     sessions := [publicSession]; wire := []; logs := [] |}.

(** 8.8.8.8 registered at time 0; five minutes later 9.9.9.9 connects. *)
Definition registered : Server :=
  run init [Connection (Some "8.8.8.8") 0; SockData 0 "{}";
            FloodDelayElapsed 0 (Message (Some "register"));
            GeoSettled 0 (GeoData (Some 10%float) (Some 10%float));
            Connection (Some "9.9.9.9") 300000; SockData 1 "{}"].

(** 9.9.9.9 registers and is located at (8, 1); then 8.8.8.8 registers
    and is located at (-8, -179), close to the antipode of the first. *)
Definition antipodalPair : list Event :=
  [Connection (Some "9.9.9.9") 0; SockData 0 "{}";
   FloodDelayElapsed 0 (Message (Some "register"));
   GeoSettled 0 (GeoData (Some 8%float) (Some 1%float));
   Connection (Some "8.8.8.8") 1000; SockData 1 "{}";
   FloodDelayElapsed 1 (Message (Some "register"));
   GeoSettled 1 (GeoData (Some (-8)%float) (Some (-179)%float))].

(** What the [Math] object answers at the arguments [distance] reaches on
    [antipodalPair], as Node.js does (each line can be tried at its
    prompt): the correctly rounded sines, cosines and squares, the IEEE
    square roots, NaN for the square root of a negative number and for the
    arctangent of NaN.  In decimal:
    [Math.sin(-0.13962634015954636) = -0.13917310096006544],
    [Math.sin(-1.5707963267948966) = -1],
    [Math.cos(0.13962634015954636) = 0.9902680687415704],
    [(-0.13917310096006544) ** 2 = 0.019369152030840567],
    [Math.sqrt(1.0000000000000002) = 1] and
    [Math.sqrt(-2.220446049250313e-16) = NaN]. *)
Definition antipodalValues : Prop :=
  (Math_sin 0 = 0
   ∧ Math_sin (-0x1.1df46a2529d39p-3) = -0x1.1d06c968d9e19p-3
   ∧ Math_sin (-0x1.921fb54442d18p+0) = -1
   ∧ Math_cos 0x1.1df46a2529d39p-3 = 0x1.fb046a930947ap-1
   ∧ Math_cos (-0x1.1df46a2529d39p-3) = 0x1.fb046a930947ap-1
   ∧ Number_exponentiate 0 2 = 0
   ∧ Number_exponentiate (-0x1.1d06c968d9e19p-3) 2 = 0x1.3d581ca184804p-6
   ∧ Number_exponentiate (-1) 2 = 1
   ∧ Math_sqrt 0 = 0
   ∧ Math_sqrt 1 = 1
   ∧ Math_sqrt 0x1.0000000000001p+0 = 1
   ∧ Math_sqrt (-0x1p-52) = nan
   ∧ Math_atan2 0 1 = 0
   ∧ Math_atan2 1 nan = nan)%float.

(** A [Math] object with these values, for the sample runs: a table of
    the sines and cosines above, the IEEE square root, the IEEE product
    for a square, and [Math.atan2] where ECMAScript fixes it.  It is a
    sample, not the [Math] object of Node.js: where the table has no entry
    it answers NaN. *)
Definition sampleMath : MathObject :=
  {| Math_sin x :=
       (if x =? 0 then x
        else if x =? -0x1.1df46a2529d39p-3     (* -0.13962634015954636 *)
        then -0x1.1d06c968d9e19p-3             (* -0.13917310096006544 *)
        else if x =? -0x1.921fb54442d18p+0     (* -1.5707963267948966 *)
        then -1
        else nan)%float;
     Math_cos x :=
       (if abs x =? 0x1.1df46a2529d39p-3       (* 0.13962634015954636 *)
        then 0x1.fb046a930947ap-1              (* 0.9902680687415704 *)
        else nan)%float;
     Math_sqrt x := PrimFloat.sqrt x;
     Math_atan2 y x :=
       (if is_nan y || is_nan x then nan
        else if (y =? 0) && (0 <? x) then y
        else nan)%float;
     Number_exponentiate base exponent :=
       (if exponent =? 2 then base * base else nan)%float |}.

(** * The rest of the server *)


(** ** Connections and events *)

(** The connection an event belongs to; a new connection gets the next
    number, the two timers belong to none. *)
Definition event_conn (st : Server) (e : Event) : option nat :=
  match e with
  | Connection _ _ => Some (length (sessions st))
  | SockTimeout c | SockData c _ | FloodDelayElapsed c _ | GeoSettled c _
  | SockError c => Some c
  | CounterReset | Sweep _ => None
  end.

(** A new connection that comes with an address. *)
Definition addressed (e : Event) : bool :=
  match e with
  | Connection ip _ => negb (falsy_ip ip)
  | _ => false
  end.

Definition is_reset (e : Event) : bool :=
  match e with CounterReset => true | _ => false end.

(** A socket the connection handler has returned from without attaching
    its handlers. *)
Definition unattached (s : Session) : Prop :=
  listening s = false ∧ delayed s = 0%nat ∧ awaitingGeo s = 0%nat.

(** The sessions of [l] are in [l'], from the same address, accepted at
    the same time. *)
Definition keeps_origin (l l' : list Session) : Prop :=
  ∀ c s, l !! c = Some s →
         ∃ s', l' !! c = Some s' ∧ remoteAddress s' = remoteAddress s
               ∧ connectedAt s' = connectedAt s.

(** A time stored in the registry under [ip] is the time a connection
    from [ip] was accepted. *)
Definition connection_time (st : Server) (ip : string) (t : Z) : Prop :=
  ∃ c s, sessions st !! c = Some s ∧ remoteAddress s = ip ∧ connectedAt s = t.

Definition from_own_connection (st : Server) : Prop :=
  ∀ ip info, (ip, info) ∈ peerRecord st →
             connection_time st ip (firstSeen info) ∧ connection_time st ip (lastSeen info).

(** What an event writes, with the connection it writes to: a plain
    status, or the ranked list for the coordinate just stored under the
    address of that connection. *)
Definition written_by (st st' : Server) (c : nat) (r : Response) : Prop :=
  wire st' = wire st ++ [{| w_conn := c; w_afterEnd := is_ended c st; w_resp := r |}]
  ∧ (plain_response r
     ∨ ∃ s' g, sessions st' !! c = Some s'
               ∧ r = buildResponse SUCCESS_REGISTER
                       (Some {| yourIP := remoteAddress s';
                                peers := nearbyPeers g (peerRecord st') |})
               ∧ pr_get (remoteAddress s') (peerRecord st')
                 = Some {| geo := g; firstSeen := connectedAt s';
                           lastSeen := connectedAt s' |}).

(** ** Sample states *)

(** Empty log files, an empty table. *)
Definition noLogs : LogRotation.LogStore :=
  {| LogRotation.content := λ _, ""; LogRotation.logsTable := [];
     LogRotation.dbLog := [] |}.

(** One connection turned away by the rate limiter. *)
Definition sixConnections : Server := run init (burst "1.2.3.4" 6).

(** A connection whose payload has grown past the cap. *)
Definition oversized : Server :=
  run init [Connection (Some "1.2.3.4") 5; SockData 0 (payload 2049)].

(** * Verification *)

(** ** Scenarios *)

(** A first register from a public address whose lookup succeeds. *)
Example register_public :
  let st := run init [Connection (Some "1.2.3.4") 5; SockData 0 "{}";
                      FloodDelayElapsed 0 (Message (Some "register"));
                      GeoSettled 0 (GeoData (Some 10%float) (Some 10%float))] in
  peerRecord st = [("1.2.3.4", {| geo := {| latitude := 10; longitude := 10 |};
                                  firstSeen := 5; lastSeen := 5 |})]
  ∧ responses 0 st =
      [buildResponse SUCCESS_REGISTER
         (Some {| yourIP := "1.2.3.4";
                  peers := [{| entry_ip := "1.2.3.4";
                               entry_geo := {| latitude := 10; longitude := 10 |} |}] |})].
Proof. by vm_compute. Qed.

(** A register from a private address: no lookup reply is used, the dummy
    coordinate is stored, the list of peers is empty. *)
Example register_private :
  let st := run init [Connection (Some "10.0.0.5") 5; SockData 0 "{}";
                      FloodDelayElapsed 0 (Message (Some "register"));
                      GeoSettled 0 GeoThrows] in
  peerRecord st = [("10.0.0.5", {| geo := dummyGeo; firstSeen := 5; lastSeen := 5 |})]
  ∧ responses 0 st =
      [buildResponse SUCCESS_REGISTER (Some {| yourIP := "10.0.0.5"; peers := [] |})].
Proof. by vm_compute. Qed.

(** 2049 characters are one too many; the payload is not parsed. *)
Example oversized_payload :
  let st := run init [Connection (Some "1.2.3.4") 5; SockData 0 (payload 2049)] in
  responses 0 st = [buildResponse ERROR_PAYLOAD_TOO_LARGE None]
  ∧ (delayed <$> sessions st !! 0%nat) = Some 0%nat
  ∧ responses 0 (run init [Connection (Some "1.2.3.4") 5; SockData 0 (payload 2048)]) = [].
Proof. by vm_compute. Qed.

Example idle_timeout :
  responses 0 (run init [Connection (Some "1.2.3.4") 5; SockTimeout 0])
  = [buildResponse ERROR_IDLE_TIMEOUT None].
Proof. by vm_compute. Qed.

(** A heartbeat or an unregister from an address that never registered
    succeeds and creates no record. *)
Example heartbeat_unknown_peer :
  let st := run init [Connection (Some "1.2.3.4") 5; SockData 0 "{}";
                      FloodDelayElapsed 0 (Message (Some "heartbeat"));
                      Connection (Some "1.2.3.4") 6; SockData 1 "{}";
                      FloodDelayElapsed 1 (Message (Some "unregister"));
                      Connection (Some "1.2.3.4") 7; SockData 2 "{}";
                      FloodDelayElapsed 2 (Message None)] in
  peerRecord st = []
  ∧ statusCode <$> responses 0 st = [1002]
  ∧ statusCode <$> responses 1 st = [1001]
  ∧ statusCode <$> responses 2 st = [2000].
Proof. by vm_compute. Qed.

(** The 101st connection of one second is turned away whoever sends it. *)
Example global_limit :
  let st := run (set_globalRequestCount 100 init) [Connection (Some "1.2.3.4") 5] in
  responses 0 st = [buildResponse ERROR_GLOBAL_DOS None] ∧ clientRecord st = ∅.
Proof. by vm_compute. Qed.


(** ** Frame facts of the primitive updates *)

Ltac unfold_prims :=
  unfold sock_end, sock_write, update_session, appendLog, set_wire, set_sessions,
    set_globalRequestCount, set_banList, set_clientRecord, set_peerRecord in *.

Lemma run_app st evs1 evs2 : run st (evs1 ++ evs2) = run (run st evs1) evs2.
Proof. apply foldl_app. Qed.

Lemma run_snoc st evs e : run st (evs ++ [e]) = step (run st evs) e.
Proof. by rewrite run_app. Qed.

Lemma reachable_init : reachable init.
Proof. by exists []. Qed.

Lemma reachable_step st e : reachable st → reachable (step st e).
Proof. intros [evs ->]. exists (evs ++ [e]). by rewrite run_snoc. Qed.

Lemma reachable_run st evs : reachable st → reachable (run st evs).
Proof. intros [evs0 ->]. exists (evs0 ++ evs). by rewrite run_app. Qed.

(** Induction over the executions of the server. *)
Lemma reachable_ind (P : Server → Prop) :
  P init → (∀ st e, reachable st → P st → P (step st e)) → ∀ st, reachable st → P st.
Proof.
  intros Hinit Hstep st [evs ->].
  induction evs as [|e evs IH] using rev_ind; [done|].
  rewrite run_snoc. apply Hstep; [by eexists | done].
Qed.

Lemma window_of_prune ip now st :
  window_of (clientRecord (prune ip now st)) ip
  = filter (λ ts, now - ts < WINDOW_MS) (window_of (clientRecord st) ip).
Proof. unfold prune, window_of at 1. simpl. by rewrite lookup_insert_eq. Qed.

Lemma window_of_push ip now st :
  window_of (clientRecord (push ip now st)) ip = window_of (clientRecord st) ip ++ [now].
Proof. unfold push, window_of at 1. simpl. by rewrite lookup_insert_eq. Qed.

Lemma getGeo_frame ip reply st g st' :
  getGeo ip reply st = (g, st') →
  peerRecord st' = peerRecord st ∧ clientRecord st' = clientRecord st
  ∧ banList st' = banList st ∧ globalRequestCount st' = globalRequestCount st
  ∧ sessions st' = sessions st ∧ wire st' = wire st.
Proof.
  unfold getGeo. intros H.
  repeat case_match; simplify_eq; done.
Qed.

(** ** The ban table *)

Lemma sweep_banList now st : banList (sweep now st) = banList st.
Proof.
  unfold sweep. generalize (peerRecord st). intros l. revert st.
  induction l as [|e l IH]; intros st; simpl; [done|].
  rewrite IH. unfold sweepEntry. by case_bool_decide.
Qed.

(** An admitted request leaves at most [RATE_LIMIT] timestamps behind, so
    the comparison of [autoBan] is never satisfied where it is evaluated. *)
Lemma accepted_window_short ip now st :
  ¬ (RATE_LIMIT ≤ length (window_of (clientRecord (prune ip now st)) ip))%nat →
  (length (window_of (clientRecord (push ip now (prune ip now st))) ip) ≤ RATE_LIMIT)%nat.
Proof. rewrite window_of_push, length_app. simpl. lia. Qed.

Lemma onConnection_banList ip now st : banList (onConnection ip now st) = banList st.
Proof.
  unfold onConnection.
  destruct (_ || _); [done|].
  destruct (bool_decide (MAX_CONN_PER_SECOND < _)); [done|].
  match goal with |- context [prune ?a ?n ?s] => set (addr := a); set (st0 := s) end.
  destruct (bool_decide (RATE_LIMIT ≤ _)%nat) eqn:Hlim; [done|].
  apply bool_decide_eq_false in Hlim.
  apply (accepted_window_short addr now st0) in Hlim.
  unfold autoBan. rewrite bool_decide_false; [done|].
  subst st0 addr. unfold RATE_LIMIT in *. lia.
Qed.

Lemma step_banList st e : banList (step st e) = banList st.
Proof.
  destruct e as [ip now|c|c data|c msg|c reply|c| |now]; simpl.
  - apply onConnection_banList.
  - unfold onTimeout. by repeat case_match.
  - unfold onData. by repeat case_match.
  - unfold afterDelay. by repeat case_match.
  - unfold afterGeo. destruct (sessions st !! c) as [s|]; [|done].
    destruct (awaitingGeo s); [done|].
    destruct (getGeo _ _ _) as [g st'] eqn:Hg.
    apply getGeo_frame in Hg as (_ & _ & Hb & _).
    destruct g; simpl; by rewrite Hb.
  - unfold onError. by repeat case_match.
  - done.
  - apply sweep_banList.
Qed.

Lemma run_banList st evs : banList (run st evs) = banList st.
Proof.
  revert st. induction evs as [|e evs IH]; intros st; simpl; [done|].
  by rewrite IH, step_banList.
Qed.

(** C8: the auto-ban test is only evaluated after an admitted request,
    where the stored sequence has at most [RATE_LIMIT] entries, and with at
    most [RATE_LIMIT] entries it changes nothing; so whatever connections,
    data, timers and lookups occur, no event changes [banList]: started
    empty it stays empty, no source is ever reported as banned, and the
    first guard of the connection handler never fires for a non-empty
    address. *)
Theorem C8_banList_stays_empty (evs : list Event) :
  (∀ st ip now,
     ¬ (RATE_LIMIT ≤ length (window_of (clientRecord (prune ip now st)) ip))%nat →
     (length (window_of (clientRecord (push ip now (prune ip now st))) ip) ≤ RATE_LIMIT)%nat)
  ∧ (∀ st ip now,
       (length (window_of (clientRecord st) ip) ≤ RATE_LIMIT * 3)%nat →
       autoBan ip now st = st)
  ∧ (∀ st e, banList (step st e) = banList st)
  ∧ banList (run init evs) = ∅
  ∧ (∀ ip now, is_banned (banList (run init evs)) ip now = false)
  ∧ (∀ ip now, ip ≠ "" →
       falsy_ip (Some ip) || is_banned (banList (run init evs)) ip now = false).
Proof.
  assert (Hb : banList (run init evs) = ∅) by apply run_banList.
  split; [intros st ip now; apply accepted_window_short|].
  split.
  { intros st ip now Hlen. unfold autoBan. rewrite bool_decide_false; [done|lia]. }
  split; [apply step_banList|]. split; [done|].
  assert (Hn : ∀ ip now, is_banned (banList (run init evs)) ip now = false).
  { intros ip now. unfold is_banned. by rewrite Hb, lookup_empty. }
  split; [done|]. intros ip now Hip. rewrite Hn. simpl.
  by rewrite bool_decide_false.
Qed.

(** C1 (the code departs from the specification): sixteen connections from
    1.2.3.4 inside one window leave sixteen timestamps stored for that
    address, more than [RATE_LIMIT * 3], and still no ban entry: the five
    admitted requests reach the auto-ban test with at most five stored
    timestamps, the eleven rejected ones return before it. *)
Lemma C1_sixteen_requests_no_ban :
  let st := run init (burst "1.2.3.4" 16) in
  length (window_of (clientRecord st) "1.2.3.4") = 16%nat
  ∧ (RATE_LIMIT * 3 < length (window_of (clientRecord st) "1.2.3.4"))%nat
  ∧ banList st = ∅
  ∧ (statusCode ∘ w_resp) <$> wire (step st (Connection (Some "1.2.3.4") 16)) =
      replicate 12 2002.
Proof. vm_compute. done. Qed.

(** ** The per-IP window *)

Lemma alter_snoc {A} (f : A → A) (l : list A) (x : A) :
  alter f (length l) (l ++ [x]) = l ++ [f x].
Proof. induction l as [|y l IH]; simpl; [done|]. by f_equal. Qed.

Lemma is_ended_snoc st s :
  is_ended (length (sessions st)) (set_sessions (sessions st ++ [s]) st) = ended s.
Proof.
  unfold is_ended. simpl.
  rewrite lookup_app_r by lia. by rewrite Nat.sub_diag.
Qed.

Section Connection.
Variables (st : Server) (ip : string) (now : Z).
Hypothesis Hip : ip ≠ "".
Hypothesis Hban : is_banned (banList st) ip now = false.
Hypothesis Hglobal : globalRequestCount st < MAX_CONN_PER_SECOND.

Let w := filter (λ ts, now - ts < WINDOW_MS) (window_of (clientRecord st) ip).
Let st' := onConnection (Some ip) now st.

Lemma onConnection_guards_pass :
  falsy_ip (Some ip) || is_banned (banList st) ip now = false
  ∧ bool_decide (MAX_CONN_PER_SECOND < globalRequestCount st + 1) = false.
Proof.
  rewrite Hban. simpl. rewrite bool_decide_false by done.
  split; [done|]. apply bool_decide_false. lia.
Qed.

(** Fewer than [RATE_LIMIT] timestamps in the window: the request is
    admitted, its timestamp appended, the handlers attached. *)
Lemma connection_accepted :
  (length w < RATE_LIMIT)%nat →
  window_of (clientRecord st') ip = w ++ [now]
  ∧ globalRequestCount st' = globalRequestCount st + 1
  ∧ banList st' = banList st
  ∧ wire st' = wire st
  ∧ sessions st' = sessions st ++ [attach (new_session ip now)].
Proof.
  intros Hw. destruct onConnection_guards_pass as [Hg1 Hg2].
  subst st'. unfold onConnection. change (default "" (Some ip)) with ip.
  change (banList (set_sessions _ st)) with (banList st). rewrite Hg1.
  change (globalRequestCount (set_globalRequestCount ?n _)) with n.
  change (globalRequestCount (set_sessions _ st)) with (globalRequestCount st).
  rewrite Hg2.
  rewrite window_of_prune.
  change (clientRecord (set_globalRequestCount _ (set_sessions _ st)))
    with (clientRecord st).
  fold w. rewrite bool_decide_false by lia.
  unfold autoBan. rewrite window_of_push, window_of_prune.
  change (clientRecord (set_globalRequestCount _ (set_sessions _ st)))
    with (clientRecord st).
  fold w. rewrite bool_decide_false
    by (rewrite length_app; unfold RATE_LIMIT in *; simpl; lia).
  unfold_prims. unfold window_of, push, prune. simpl.
  rewrite !lookup_insert_eq. simpl. rewrite alter_snoc.
  unfold window_of. rewrite ?lookup_insert_eq. done.
Qed.

(** [RATE_LIMIT] or more timestamps in the window: the request is
    answered with ERROR_RATE_LIMIT, and its timestamp appended all the
    same. *)
Lemma connection_rate_limited :
  (RATE_LIMIT ≤ length w)%nat →
  window_of (clientRecord st') ip = w ++ [now]
  ∧ globalRequestCount st' = globalRequestCount st + 1
  ∧ banList st' = banList st
  ∧ wire st' = wire st ++ [{| w_conn := length (sessions st); w_afterEnd := false;
                             w_resp := buildResponse ERROR_RATE_LIMIT None |}]
  ∧ sessions st' = sessions st ++ [mark_ended (new_session ip now)].
Proof.
  intros Hw. destruct onConnection_guards_pass as [Hg1 Hg2].
  subst st'. unfold onConnection. change (default "" (Some ip)) with ip.
  change (banList (set_sessions _ st)) with (banList st). rewrite Hg1.
  change (globalRequestCount (set_globalRequestCount ?n _)) with n.
  change (globalRequestCount (set_sessions _ st)) with (globalRequestCount st).
  rewrite Hg2.
  rewrite window_of_prune.
  change (clientRecord (set_globalRequestCount _ (set_sessions _ st)))
    with (clientRecord st).
  fold w. rewrite bool_decide_true by lia.
  unfold sock_write.
  change (is_ended _ _) with
    (is_ended (length (sessions st))
       (set_sessions (sessions st ++ [new_session ip now]) st)).
  rewrite is_ended_snoc.
  unfold_prims. unfold window_of, push, prune. simpl.
  rewrite !lookup_insert_eq. simpl. rewrite alter_snoc.
  unfold window_of. rewrite ?lookup_insert_eq. done.
Qed.
End Connection.

Lemma not_banned_absent bl ip now : bl !! ip = None → is_banned bl ip now = false.
Proof. unfold is_banned. by intros ->. Qed.

Lemma filter_window_all (now : Z) (l : list Z) :
  Forall (λ ts, now - ts < WINDOW_MS) l →
  filter (λ ts, now - ts < WINDOW_MS) l = l.
Proof.
  induction 1 as [|ts l Hts _ IH]; [done|].
  rewrite filter_cons, decide_True by done. by rewrite IH.
Qed.

(** One more admitted request on top of a stored sequence that lies in the
    window of [now]. *)
Lemma accept_next st ip now l :
  ip ≠ "" → banList st !! ip = None →
  globalRequestCount st < MAX_CONN_PER_SECOND →
  filter (λ ts, now - ts < WINDOW_MS) (window_of (clientRecord st) ip) = l →
  (length l < RATE_LIMIT)%nat →
  let st' := step st (Connection (Some ip) now) in
  window_of (clientRecord st') ip = l ++ [now]
  ∧ globalRequestCount st' = globalRequestCount st + 1
  ∧ banList st' !! ip = None
  ∧ wire st' = wire st
  ∧ sessions st' = sessions st ++ [attach (new_session ip now)].
Proof.
  intros Hip Hb Hg Hf Hl. simpl.
  destruct (connection_accepted st ip now Hip (not_banned_absent _ _ _ Hb) Hg)
    as (H1 & H2 & H3 & H4 & H5); [by rewrite Hf|].
  rewrite Hf in H1. by rewrite H3.
Qed.

(** C4: six connections from one source whose timestamps lie in one window
    of [WINDOW_MS] milliseconds, arriving at a server that holds no
    in-window timestamp for that source: the first five are admitted (no
    response is written, the socket handlers are attached), the sixth is
    answered with ERROR_RATE_LIMIT (2002), and its timestamp is stored
    after the other five. *)
Theorem C4_sixth_request_rate_limited st ip lo t1 t2 t3 t4 t5 t6 :
  ip ≠ "" →
  banList st !! ip = None →
  globalRequestCount st + 6 ≤ MAX_CONN_PER_SECOND →
  filter (λ ts, t1 - ts < WINDOW_MS) (window_of (clientRecord st) ip) = [] →
  Forall (λ t, lo ≤ t < lo + WINDOW_MS) [t1; t2; t3; t4; t5; t6] →
  let st5 := run st (Connection (Some ip) <$> [t1; t2; t3; t4; t5]) in
  let st6 := step st5 (Connection (Some ip) t6) in
  wire st5 = wire st
  ∧ sessions st5 =
      sessions st ++ ((λ t, attach (new_session ip t)) <$> [t1; t2; t3; t4; t5])
  ∧ window_of (clientRecord st5) ip = [t1; t2; t3; t4; t5]
  ∧ wire st6 =
      wire st ++ [{| w_conn := length (sessions st) + 5; w_afterEnd := false;
                     w_resp := buildResponse ERROR_RATE_LIMIT None |}]
  ∧ statusCode (buildResponse ERROR_RATE_LIMIT None) = 2002
  ∧ window_of (clientRecord st6) ip = [t1; t2; t3; t4; t5; t6].
Proof.
  intros Hip Hb Hg Hf Hwin.
  repeat match goal with H : Forall _ (_ :: _) |- _ => apply Forall_cons in H as [? H] end.
  clear Hwin. cbn [fmap list_fmap run foldl].
  assert (Hall : ∀ now l, Forall (λ ts, now - ts < WINDOW_MS) l →
            filter (λ ts, now - ts < WINDOW_MS) l = l) by apply filter_window_all.
  destruct (accept_next st ip t1 [] Hip Hb) as (W1 & G1 & B1 & O1 & S1);
    [lia | done | unfold RATE_LIMIT; simpl; lia |].
  set (st1 := step st _) in *.
  destruct (accept_next st1 ip t2 [t1] Hip B1) as (W2 & G2 & B2 & O2 & S2);
    [lia | rewrite W1; apply Hall; repeat constructor; lia
    | unfold RATE_LIMIT; simpl; lia |].
  set (st2 := step st1 _) in *.
  destruct (accept_next st2 ip t3 [t1; t2] Hip B2) as (W3 & G3 & B3 & O3 & S3);
    [lia | rewrite W2; apply Hall; repeat constructor; lia
    | unfold RATE_LIMIT; simpl; lia |].
  set (st3 := step st2 _) in *.
  destruct (accept_next st3 ip t4 [t1; t2; t3] Hip B3) as (W4 & G4 & B4 & O4 & S4);
    [lia | rewrite W3; apply Hall; repeat constructor; lia
    | unfold RATE_LIMIT; simpl; lia |].
  set (st4 := step st3 _) in *.
  destruct (accept_next st4 ip t5 [t1; t2; t3; t4] Hip B4) as (W5 & G5 & B5 & O5 & S5);
    [lia | rewrite W4; apply Hall; repeat constructor; lia
    | unfold RATE_LIMIT; simpl; lia |].
  set (st5 := step st4 _) in *.
  assert (Hf6 : filter (λ ts, t6 - ts < WINDOW_MS) (window_of (clientRecord st5) ip)
                = [t1; t2; t3; t4; t5]).
  { rewrite W5. apply Hall. repeat constructor; lia. }
  destruct (connection_rate_limited st5 ip t6 Hip (not_banned_absent _ _ _ B5))
    as (W6 & _ & _ & O6 & _); [lia | rewrite Hf6; unfold RATE_LIMIT; simpl; lia |].
  rewrite Hf6 in W6.
  assert (HS : sessions st5 =
            sessions st ++ ((λ t, attach (new_session ip t)) <$> [t1; t2; t3; t4; t5])).
  { rewrite S5, S4, S3, S2, S1. by rewrite <- !app_assoc. }
  split_and!.
  - congruence.
  - done.
  - done.
  - change (step st5 (Connection (Some ip) t6)) with (onConnection (Some ip) t6 st5).
    rewrite O6, HS, length_app. simpl. by rewrite O5, O4, O3, O2, O1.
  - done.
  - done.
Qed.

(** ** The register branch *)

(** The result of [getGeo] does not depend on the server state. *)
Lemma getGeo_result ip reply st st0 : (getGeo ip reply st).1 = (getGeo ip reply st0).1.
Proof. unfold getGeo. by repeat case_match. Qed.

(** A register request from an unknown address suspends in the lookup:
    nothing is stored, nothing is written. *)
Lemma register_suspends st c s n :
  sessions st !! c = Some s → delayed s = S n →
  pr_get (remoteAddress s) (peerRecord st) = None →
  let st1 := step st (FloodDelayElapsed c (Message (Some "register"))) in
  peerRecord st1 = peerRecord st ∧ wire st1 = wire st
  ∧ sessions st1 !! c = Some (set_awaitingGeo (S (awaitingGeo s)) (set_delayed n s)).
Proof.
  intros Hs Hd Hp. simpl. unfold afterDelay. rewrite Hs, Hd.
  rewrite decide_True by done.
  change (peerRecord (update_session _ _ st)) with (peerRecord st). rewrite Hp.
  split_and!; [done..|].
  unfold update_session. simpl.
  rewrite !list_lookup_alter_eq, Hs. done.
Qed.

(** A lookup that gives no coordinate: ERROR_GEO_LOOKUP_FAILED is written,
    the socket ended, and [peerRecord] is the one it was. *)
Lemma lookup_failed st c s n reply :
  sessions st !! c = Some s → awaitingGeo s = S n →
  (getGeo (remoteAddress s) reply st).1 = None →
  let st' := step st (GeoSettled c reply) in
  wire st' = wire st ++ [{| w_conn := c; w_afterEnd := ended s;
                            w_resp := buildResponse ERROR_GEO_LOOKUP_FAILED None |}]
  ∧ peerRecord st' = peerRecord st
  ∧ sessions st' =
      alter mark_ended c (alter mark_ended c (alter (set_awaitingGeo n) c (sessions st)))
  ∧ is_ended c st' = true.
Proof.
  intros Hs Ha Hg. simpl. unfold afterGeo. rewrite Hs, Ha.
  destruct (getGeo _ _ (update_session _ _ _)) as [g st0] eqn:E.
  assert (g = None) as ->.
  { rewrite (getGeo_result _ _ _ (update_session c (set_awaitingGeo n) st)) in Hg.
    by rewrite E in Hg. }
  assert (He : is_ended c st0 = ended s).
  { apply getGeo_frame in E as (_ & _ & _ & _ & E & _).
    unfold is_ended. rewrite E. simpl. by rewrite list_lookup_alter_eq, Hs. }
  apply getGeo_frame in E as (Hp & _ & _ & _ & Hss & Hw).
  unfold sock_write. rewrite He.
  unfold_prims. unfold is_ended. simpl in *. rewrite Hp, Hss, Hw.
  split_and!; [done..|].
  by rewrite !list_lookup_alter_eq, Hs.
Qed.

(** C5: a register request from an address without a record waits for the
    lookup; when the lookup gives no usable coordinate the response is
    ERROR_GEO_LOOKUP_FAILED (2006) and [peerRecord] is unchanged, both when
    the lookup settles at once and when it settles in any later state. *)
Theorem C5_geo_failure_leaves_registry st c s n reply :
  sessions st !! c = Some s → delayed s = S n →
  pr_get (remoteAddress s) (peerRecord st) = None →
  (getGeo (remoteAddress s) reply st).1 = None →
  let st1 := step st (FloodDelayElapsed c (Message (Some "register"))) in
  let st2 := step st1 (GeoSettled c reply) in
  (peerRecord st1 = peerRecord st ∧ wire st1 = wire st)
  ∧ wire st2 = wire st ++ [{| w_conn := c; w_afterEnd := ended s;
                              w_resp := buildResponse ERROR_GEO_LOOKUP_FAILED None |}]
  ∧ statusCode (buildResponse ERROR_GEO_LOOKUP_FAILED None) = 2006
  ∧ peerRecord st2 = peerRecord st
  ∧ pr_get (remoteAddress s) (peerRecord st2) = None
  ∧ (∀ st' s' n', sessions st' !! c = Some s' → remoteAddress s' = remoteAddress s →
       awaitingGeo s' = S n' →
       peerRecord (step st' (GeoSettled c reply)) = peerRecord st'
       ∧ wire (step st' (GeoSettled c reply)) =
           wire st' ++ [{| w_conn := c; w_afterEnd := ended s';
                           w_resp := buildResponse ERROR_GEO_LOOKUP_FAILED None |}]).
Proof.
  intros Hs Hd Hp Hg.
  destruct (register_suspends st c s n Hs Hd Hp) as (P1 & W1 & S1).
  intros st1 st2. fold st1 in P1, W1, S1.
  destruct (lookup_failed st1 c _ (awaitingGeo s) reply S1 eq_refl) as (W2 & P2 & _).
  { simpl. by rewrite (getGeo_result _ _ _ st). }
  fold st2 in W2, P2. simpl in W2.
  split_and!; try done.
  - by rewrite W2, W1.
  - by rewrite P2, P1.
  - by rewrite P2, P1.
  - intros st' s' n' Hs' Hip Ha.
    destruct (lookup_failed st' c s' n' reply Hs' Ha) as (W & P & _); [|done].
    by rewrite Hip, (getGeo_result _ _ _ st).
Qed.

Lemma oneRequest_reached :
  oneRequest = run init [Connection (Some "8.8.8.8") 7; SockData 0 "{}"].
Proof. by vm_compute. Qed.

Lemma pr_get_set_eq ip v pr : pr_get ip (pr_set ip v pr) = Some v.
Proof.
  induction pr as [|[k w] pr IH]; simpl.
  - by rewrite decide_True.
  - destruct (decide (k = ip)) as [->|Hne]; simpl.
    + by rewrite decide_True.
    + by rewrite decide_False.
Qed.

Lemma pr_get_set_ne ip ip' v pr : ip ≠ ip' → pr_get ip' (pr_set ip v pr) = pr_get ip' pr.
Proof.
  intros Hne. induction pr as [|[k w] pr IH]; simpl.
  - by rewrite decide_False.
  - destruct (decide (k = ip)) as [->|Hk]; simpl.
    + by rewrite !decide_False.
    + by rewrite IH.
Qed.

(** C6: a register request from an address that has a record does not
    wait for a lookup (no callback is left suspended in [getGeo], and the
    step consults no lookup reply); the record written back carries the
    stored coordinate, and [firstSeen] and [lastSeen] are both the time the
    connection was accepted, whatever [firstSeen] was before. *)
Theorem C6_register_known_peer st c s n info :
  sessions st !! c = Some s → delayed s = S n →
  pr_get (remoteAddress s) (peerRecord st) = Some info →
  let st' := step st (FloodDelayElapsed c (Message (Some "register"))) in
  pr_get (remoteAddress s) (peerRecord st')
    = Some {| geo := geo info; firstSeen := connectedAt s; lastSeen := connectedAt s |}
  ∧ awaitingGeo <$> sessions st' !! c = Some (awaitingGeo s)
  ∧ logs st' = logs st ++ [(REQUEST_LOG, ("Registered peer: " ++ remoteAddress s)%string)]
  ∧ wire st' =
      wire st ++ [{| w_conn := c; w_afterEnd := ended s;
                     w_resp := buildResponse SUCCESS_REGISTER
                       (Some {| yourIP := remoteAddress s;
                                peers := nearbyPeers (geo info) (peerRecord st') |}) |}].
Proof.
  intros Hs Hd Hp. simpl. unfold afterDelay. rewrite Hs, Hd.
  rewrite decide_True by done.
  change (peerRecord (update_session _ _ st)) with (peerRecord st). rewrite Hp.
  unfold registerPeer. unfold_prims. unfold is_ended. simpl.
  rewrite pr_get_set_eq, !list_lookup_alter_eq, Hs. done.
Qed.

(** C10: for an address that [isPrivateIP] does not recognise, an answer
    of the provider whose latitude or longitude is zero or absent makes
    [getGeo] return nothing (and log nothing); a first register of that
    address then ends with ERROR_GEO_LOOKUP_FAILED (2006) and an unchanged
    [peerRecord], with the same response, registry and sockets as when the
    request to the provider throws; only the error log line is missing. *)
Theorem C10_zero_coordinate_is_failure st c s n lat lon :
  sessions st !! c = Some s → delayed s = S n →
  isPrivateIP (remoteAddress s) = false →
  pr_get (remoteAddress s) (peerRecord st) = None →
  truthy lat && truthy lon = false →
  let st1 := step st (FloodDelayElapsed c (Message (Some "register"))) in
  let st2 := step st1 (GeoSettled c (GeoData lat lon)) in
  let st2' := step st1 (GeoSettled c GeoThrows) in
  (∀ st0, getGeo (remoteAddress s) (GeoData lat lon) st0 = (None, st0))
  ∧ wire st2 = wire st ++ [{| w_conn := c; w_afterEnd := ended s;
                              w_resp := buildResponse ERROR_GEO_LOOKUP_FAILED None |}]
  ∧ statusCode (buildResponse ERROR_GEO_LOOKUP_FAILED None) = 2006
  ∧ peerRecord st2 = peerRecord st
  ∧ wire st2' = wire st2 ∧ peerRecord st2' = peerRecord st2 ∧ sessions st2' = sessions st2
  ∧ logs st2' = logs st2 ++ [(ERROR_LOG, ("Geo lookup failed for " ++ remoteAddress s)%string)].
Proof.
  intros Hs Hd Hpriv Hp Hll.
  assert (Hnone : ∀ st0, getGeo (remoteAddress s) (GeoData lat lon) st0 = (None, st0)).
  { intros st0. unfold getGeo. rewrite Hpriv.
    destruct lat as [la|], lon as [lo|]; simpl in *; by try rewrite Hll. }
  assert (Hthrow : ∀ st0, (getGeo (remoteAddress s) GeoThrows st0).1 = None).
  { intros st0. unfold getGeo. by rewrite Hpriv. }
  destruct (register_suspends st c s n Hs Hd Hp) as (P1 & W1 & S1).
  intros st1 st2 st2'. fold st1 in P1, W1, S1.
  destruct (lookup_failed st1 c _ (awaitingGeo s) (GeoData lat lon) S1 eq_refl)
    as (W2 & P2 & S2 & _); [simpl; by rewrite Hnone|].
  destruct (lookup_failed st1 c _ (awaitingGeo s) GeoThrows S1 eq_refl)
    as (W2' & P2' & S2' & _); [apply Hthrow|].
  fold st2 in W2, P2, S2. fold st2' in W2', P2', S2'. simpl in W2, W2'.
  split_and!; try done.
  - by rewrite W2, W1.
  - by rewrite P2, P1.
  - by rewrite W2', W2.
  - by rewrite P2', P2.
  - by rewrite S2', S2.
  - subst st2 st2'. simpl. unfold afterGeo. rewrite S1. simpl.
    rewrite Hnone. unfold getGeo. rewrite Hpriv. done.
Qed.

(** ** Ranking *)

Section SortPermutes.
Context {A : Type} (cmp : A → A → float).

Lemma insert_sorted_perm x l : insert_sorted cmp x l ≡ₚ x :: l.
Proof.
  induction l as [|y l IH]; simpl; [done|].
  destruct (cmp y x <? 0)%float; [|done].
  rewrite IH. apply Permutation_swap.
Qed.

Lemma Array_sort_perm l : Array_sort cmp l ≡ₚ l.
Proof.
  induction l as [|x l IH]; simpl; [done|].
  by rewrite insert_sorted_perm, IH.
Qed.
End SortPermutes.

(** What the list sent back by a register is, whatever the comparator
    answers: candidates only, none with a zero coordinate, twenty at most,
    and as many as there are candidates when these are fewer. *)
Lemma nearbyPeers_spec g pr :
  Forall (λ p, nonzero (latitude (entry_geo p)) && nonzero (longitude (entry_geo p)) = true)
    (nearbyPeers g pr)
  ∧ length (nearbyPeers g pr) = (RESPONSE_PEER_LIMIT `min` length (rankable pr))%nat
  ∧ nearbyPeers g pr ⊆ rankable pr.
Proof.
  unfold nearbyPeers.
  assert (Hsub : take RESPONSE_PEER_LIMIT (Array_sort (byDistance g) (rankable pr))
                 ⊆ rankable pr).
  { intros p Hp. apply subseteq_take in Hp.
    by rewrite Array_sort_perm in Hp. }
  split_and!.
  - apply Forall_forall. intros p Hp. apply Hsub in Hp.
    unfold rankable in Hp. by apply list_elem_of_filter in Hp as [Hnz _].
  - by rewrite length_take, Array_sort_perm.
  - done.
Qed.

(** ** What one event writes *)

Lemma sweep_frame now st :
  wire (sweep now st) = wire st ∧ sessions (sweep now st) = sessions st
  ∧ clientRecord (sweep now st) = clientRecord st
  ∧ globalRequestCount (sweep now st) = globalRequestCount st.
Proof.
  unfold sweep. generalize (peerRecord st). intros l. revert st.
  induction l as [|e l IH]; intros st; simpl; [done|].
  destruct (IH (sweepEntry now st e)) as (-> & -> & -> & ->).
  unfold sweepEntry. by case_bool_decide.
Qed.

Lemma plain_buildResponse status :
  code status ≠ 1000 → plain_response (buildResponse status None).
Proof. by split. Qed.

Ltac plain := apply plain_buildResponse; vm_compute; congruence.

(** The pattern of every terminal path: one [sock.write], then [sock.end]. *)
Lemma respond_one_write st st0 c s r :
  sessions st0 !! c = Some s →
  wire st0 = wire st → is_ended c st0 = is_ended c st →
  plain_response r →
  one_write st (sock_end c (sock_write c r st0)).
Proof.
  intros Hs Hw He Hr. eexists. split_and!.
  - unfold_prims. simpl. by rewrite Hw.
  - simpl. by rewrite He.
  - simpl. unfold_prims. unfold is_ended. simpl.
    by rewrite list_lookup_alter_eq, Hs.
  - by left.
Qed.

Lemma is_ended_sock_end c c' st :
  is_ended c' st = true → is_ended c' (sock_end c st) = true.
Proof.
  unfold is_ended, sock_end, update_session. simpl.
  destruct (decide (c = c')) as [->|Hne].
  - rewrite list_lookup_alter_eq. by destruct (sessions st !! c').
  - by rewrite list_lookup_alter_ne.
Qed.

Lemma sock_end_one_write st st1 c : one_write st st1 → one_write st (sock_end c st1).
Proof.
  intros (w & H1 & H2 & H3 & H4). exists w. split_and!; [done..| |done].
  by apply is_ended_sock_end.
Qed.

Lemma registerPeer_one_write st st0 c s ip now g :
  sessions st0 !! c = Some s →
  wire st0 = wire st → is_ended c st0 = is_ended c st →
  one_write st (sock_end c (registerPeer c ip now g st0)).
Proof.
  intros Hs Hw He. eexists. split_and!.
  - unfold registerPeer. unfold_prims. simpl. by rewrite Hw.
  - simpl. rewrite <- He. done.
  - simpl. unfold registerPeer. unfold_prims. unfold is_ended. simpl.
    by rewrite list_lookup_alter_eq, Hs.
  - right. exists ip, now, g. split; [done|].
    unfold registerPeer. unfold_prims. simpl. apply pr_get_set_eq.
Qed.

Lemma onConnection_wire ip now st :
  wire (onConnection ip now st) = wire st ∨ one_write st (onConnection ip now st).
Proof.
  unfold onConnection.
  set (c := length (sessions st)). set (addr := default "" ip).
  set (st0 := set_sessions _ st).
  assert (Hs : ∀ st1, sessions st1 = sessions st0 →
                 sessions st1 !! c = Some (new_session addr now)).
  { intros st1 ->. subst st0 c. simpl.
    rewrite lookup_app_r by lia. by rewrite Nat.sub_diag. }
  assert (He : ∀ st1, sessions st1 = sessions st0 → is_ended c st1 = is_ended c st).
  { intros st1 H1. unfold is_ended. rewrite (Hs st1 H1).
    subst c. by rewrite lookup_ge_None_2 by lia. }
  destruct (_ || _); [by left|].
  destruct (bool_decide (MAX_CONN_PER_SECOND < _)).
  { right. eapply respond_one_write; [by apply Hs|done|by apply He|plain]. }
  destruct (bool_decide (RATE_LIMIT ≤ _)%nat).
  - right.
    destruct (respond_one_write st
                (appendLog ABUSIVE_IP_LOG ("IP rate limit exceeded: " ++ addr)
                   (prune addr now (set_globalRequestCount
                                      (globalRequestCount st0 + 1) st0)))
                c _ (buildResponse ERROR_RATE_LIMIT None)
                (Hs _ eq_refl) eq_refl (He _ eq_refl))
      as (w & ? & ? & ? & ?); [plain|].
    by exists w.
  - left. unfold autoBan. by destruct (bool_decide _).
Qed.

(** Every event makes at most one call of [sock.write]; the call is
    followed by [sock.end] on the same socket before the event is over. *)
Lemma step_wire st e : wire (step st e) = wire st ∨ one_write st (step st e).
Proof.
  destruct e as [ip now|c|c data|c msg|c reply|c| |now]; simpl.
  - apply onConnection_wire.
  - unfold onTimeout. destruct (sessions st !! c) as [s|] eqn:Hs; [|by left].
    destruct (listening s); [|by left]. right.
    eapply respond_one_write; [exact Hs|done|done|plain].
  - unfold onData. destruct (sessions st !! c) as [s|] eqn:Hs; [|by left].
    destruct (listening s); [|by left].
    destruct (bool_decide _); [|by left]. right.
    eapply respond_one_write; [|done| |plain].
    + unfold update_session. simpl. by rewrite list_lookup_alter_eq, Hs.
    + unfold is_ended, update_session. simpl. by rewrite list_lookup_alter_eq, Hs.
  - unfold afterDelay. destruct (sessions st !! c) as [s|] eqn:Hs; [|by left].
    destruct (delayed s) as [|n]; [by left|].
    set (st0 := update_session c (set_delayed n) st).
    assert (Hs0 : sessions st0 !! c = Some (set_delayed n s)).
    { subst st0. unfold update_session. simpl. by rewrite list_lookup_alter_eq, Hs. }
    assert (He0 : is_ended c st0 = is_ended c st).
    { unfold is_ended. by rewrite Hs0, Hs. }
    destruct msg as [|action].
    { right. eapply respond_one_write; [exact Hs0|done|done|plain]. }
    repeat case_decide.
    + destruct (pr_get _ _); [|by left].
      right. by eapply registerPeer_one_write.
    + right. destruct (pr_get _ _);
        (eapply respond_one_write; [exact Hs0|done|done|plain]).
    + right. destruct (pr_get _ _);
        (eapply respond_one_write; [exact Hs0|done|done|plain]).
    + right. eapply respond_one_write; [exact Hs0|done|done|plain].
  - unfold afterGeo. destruct (sessions st !! c) as [s|] eqn:Hs; [|by left].
    destruct (awaitingGeo s) as [|n]; [by left|].
    destruct (getGeo _ _ _) as [g st0] eqn:Hg.
    apply getGeo_frame in Hg as (_ & _ & _ & _ & Hss & Hw). simpl in Hss, Hw.
    assert (Hs0 : sessions st0 !! c = Some (set_awaitingGeo n s)).
    { by rewrite Hss, list_lookup_alter_eq, Hs. }
    assert (He0 : is_ended c st0 = is_ended c st).
    { unfold is_ended. by rewrite Hs0, Hs. }
    right. destruct g as [g|].
    + by eapply registerPeer_one_write.
    + apply sock_end_one_write.
      eapply respond_one_write; [exact Hs0|done|done|plain].
  - unfold onError. left. by repeat case_match.
  - by left.
  - left. apply sweep_frame.
Qed.

(** X22: whatever the [Math] object answers, a response that carries a
    [peers] list lists candidates only, that is records of the registry
    whose latitude and longitude are both non-zero; it lists
    [RESPONSE_PEER_LIMIT] = 20 of them when there are that many, and as
    many as there are otherwise. *)
Theorem peers_list_filtered_and_bounded st e w body :
  wire (step st e) = wire st ++ [w] →
  extraBody (w_resp w) = Some body →
  Forall (λ p, nonzero (latitude (entry_geo p)) && nonzero (longitude (entry_geo p)) = true)
    (peers body)
  ∧ peers body ⊆ rankable (peerRecord (step st e))
  ∧ length (peers body)
    = (RESPONSE_PEER_LIMIT `min` length (rankable (peerRecord (step st e))))%nat
  ∧ RESPONSE_PEER_LIMIT = 20%nat.
Proof.
  intros Hw Hbody.
  destruct (step_wire st e) as [Hsame|(w' & Hw' & _ & _ & Hkind)].
  { rewrite Hsame in Hw. apply (f_equal length) in Hw.
    rewrite length_app in Hw. simpl in Hw. lia. }
  rewrite Hw in Hw'. apply app_inj_tail in Hw' as [_ <-].
  destruct Hkind as [[Hnone _]|(ip & now & g & Hr & _)]; [congruence|].
  rewrite Hr in Hbody. injection Hbody as <-. simpl.
  destruct (nearbyPeers_spec g (peerRecord (step st e))) as (H1 & H2 & H3).
  done.
Qed.

(** Evaluation with the values of the platform put in where the [Math]
    functions are called. *)
Ltac platform H :=
  destruct H as (S0 & S1 & S2 & C1 & C2 & E0 & E1 & E2 & Q0 & Q1 & Q2 & Q3 & A0 & A1);
  vm_compute in S0, S1, S2, C1, C2, E0, E1, E2, Q0, Q1, Q2, Q3, A0, A1;
  repeat (progress (vm_compute;
                    rewrite ?S0, ?S1, ?S2, ?C1, ?C2, ?E0, ?E1, ?E2, ?Q0, ?Q1, ?Q2, ?Q3,
                            ?A0, ?A1)).

Lemma distance_antipodal :
  antipodalValues →
  distance {| latitude := 8; longitude := 1 |} {| latitude := -8; longitude := -179 |} = nan.
Proof. intros H. platform H. reflexivity. Qed.

Lemma distance_caller :
  antipodalValues →
  distance {| latitude := -8; longitude := -179 |} {| latitude := -8; longitude := -179 |}
  = 0%float.
Proof. intros H. platform H. reflexivity. Qed.

(** C3 (fails on the code): 9.9.9.9 is registered at (8, 1), then 8.8.8.8
    registers from (-8, -179).  On a [Math] object that answers as Node.js
    does, the haversine term [aa] of the two coordinates is
    1.0000000000000002 in doubles, so [Math.sqrt(1 - aa)] and with it the
    distance of 9.9.9.9 is NaN; the comparator answers NaN, the sort leaves
    9.9.9.9 where it stood, and the response lists the peer at the antipode
    before the caller, whose distance is 0: the list is not in
    non-decreasing order of distance. *)
Theorem C3_antipodal_peer_listed_first :
  antipodalValues →
  let caller := {| latitude := -8; longitude := -179 |} in
  let peer := {| latitude := 8; longitude := 1 |} in
  responses 1 (run init antipodalPair)
  = [buildResponse SUCCESS_REGISTER
       (Some {| yourIP := "8.8.8.8";
                peers := [{| entry_ip := "9.9.9.9"; entry_geo := peer |};
                          {| entry_ip := "8.8.8.8"; entry_geo := caller |}] |})]
  ∧ distance peer caller = nan
  ∧ distance caller caller = 0%float
  ∧ (distance peer caller <=? distance caller caller)%float = false
  ∧ byDistance caller {| entry_ip := "8.8.8.8"; entry_geo := caller |}
                      {| entry_ip := "9.9.9.9"; entry_geo := peer |} = nan.
Proof.
  intros H caller peer.
  pose proof (distance_antipodal H) as H1. pose proof (distance_caller H) as H2.
  fold caller peer in H1, H2. unfold byDistance. simpl entry_geo.
  rewrite H1, H2. split_and!; try reflexivity.
  platform H. reflexivity.
Qed.

(** ** The peer table *)

Lemma pr_get_None ip (pr : PeerTable) : pr_get ip pr = None ↔ ip ∉ pr.*1.
Proof.
  induction pr as [|[k v] pr IH]; simpl.
  - split; [intros _; apply not_elem_of_nil | done].
  - rewrite not_elem_of_cons. destruct (decide (k = ip)) as [->|Hne].
    + split; [done|]. by intros [? _].
    + rewrite IH. split; [by split|by intros [_ ?]].
Qed.

Lemma pr_get_Some_elem ip v (pr : PeerTable) : pr_get ip pr = Some v → (ip, v) ∈ pr.
Proof.
  induction pr as [|[k w] pr IH]; simpl; [done|].
  destruct (decide (k = ip)) as [->|Hne].
  - intros [= ->]. apply list_elem_of_here.
  - intros H. apply list_elem_of_further. by apply IH.
Qed.

Lemma pr_get_elem_NoDup ip v (pr : PeerTable) :
  NoDup pr.*1 → (ip, v) ∈ pr → pr_get ip pr = Some v.
Proof.
  induction pr as [|[k w] pr IH]; simpl.
  - intros _ H. by apply elem_of_nil in H.
  - intros Hnd H. apply NoDup_cons in Hnd as [Hk Hnd].
    apply elem_of_cons in H as [[= <- <-]|H].
    + by rewrite decide_True.
    + destruct (decide (k = ip)) as [->|Hne]; [|by apply IH].
      destruct Hk. apply list_elem_of_fmap. by exists (ip, v).
Qed.

Lemma elem_of_pr_set e ip v (pr : PeerTable) : e ∈ pr_set ip v pr → e = (ip, v) ∨ e ∈ pr.
Proof.
  induction pr as [|[k w] pr IH]; simpl.
  - intros H. apply list_elem_of_singleton in H. by left.
  - destruct (decide (k = ip)) as [->|Hne]; rewrite !elem_of_cons.
    + intros [->|H]; [by left|by right; right].
    + intros [->|H]; [by right; left|].
      destruct (IH H) as [->|H']; [by left|by right; right].
Qed.

Lemma pr_set_keys ip v (pr : PeerTable) :
  (pr_set ip v pr).*1
  = match pr_get ip pr with Some _ => pr.*1 | None => pr.*1 ++ [ip] end.
Proof.
  induction pr as [|[k w] pr IH]; csimpl; [done|].
  destruct (decide (k = ip)) as [->|Hne]; csimpl; [done|].
  rewrite IH. by destruct (pr_get ip pr).
Qed.

Lemma pr_set_NoDup ip v (pr : PeerTable) : NoDup pr.*1 → NoDup (pr_set ip v pr).*1.
Proof.
  intros Hnd. rewrite pr_set_keys. destruct (pr_get ip pr) eqn:Hg; [done|].
  apply NoDup_app. split_and!; [done| |apply NoDup_singleton].
  intros k Hk Hk'. apply list_elem_of_singleton in Hk' as ->.
  by apply pr_get_None in Hg.
Qed.

Lemma filter_keys_NoDup (P : string * PeerInfo → Prop) `{!∀ e, Decision (P e)}
    (pr : PeerTable) :
  NoDup pr.*1 → NoDup (filter P pr).*1.
Proof.
  intros Hnd. eapply sublist_NoDup; [exact Hnd|].
  apply fmap_sublist, sublist_filter.
Qed.

(** Reading a table from which the keys of a set were deleted. *)
Lemma pr_get_filter_keys (K : string → Prop) `{!∀ k, Decision (K k)} ip (pr : PeerTable) :
  pr_get ip (filter (λ e, ¬ K e.1) pr) = if decide (K ip) then None else pr_get ip pr.
Proof.
  induction pr as [|[k v] pr IH].
  - simpl. by destruct (decide (K ip)).
  - rewrite filter_cons. cbn [fst pr_get].
    destruct (decide (¬ K k)) as [Hk|Hk]; cbn [pr_get].
    + destruct (decide (k = ip)) as [->|Hne]; [|done].
      by rewrite decide_False.
    + rewrite IH. destruct (decide (k = ip)) as [->|Hne]; [|done].
      apply dec_stable in Hk. by destruct (decide (K ip)).
Qed.

Lemma pr_get_delete ip ip' (pr : PeerTable) :
  pr_get ip' (pr_delete ip pr) = if decide (ip' = ip) then None else pr_get ip' pr.
Proof. exact (pr_get_filter_keys (λ k, k = ip) ip' pr). Qed.

Lemma filter_id {A} (P : A → Prop) `{!∀ x, Decision (P x)} (l : list A) :
  (∀ x, P x) → filter P l = l.
Proof.
  intros HP. induction l as [|x l IH]; [done|].
  rewrite filter_cons, decide_True by done. by rewrite IH.
Qed.

(** *** The sweep as a filter *)

Lemma sweep_fold now st l :
  peerRecord (foldl (sweepEntry now) st l)
  = filter (λ e, e.1 ∉ staleKeys now l) (peerRecord st).
Proof.
  revert st. induction l as [|e l IH]; intros st; simpl.
  - symmetry. apply filter_id. intros. apply not_elem_of_nil.
  - rewrite IH. unfold sweepEntry, staleKeys. rewrite filter_cons. fold (stale now e).
    case_bool_decide as Hst.
    + rewrite decide_True by done. simpl. unfold pr_delete.
      rewrite list_filter_filter. apply list_filter_iff.
      intros x. rewrite not_elem_of_cons. split; [by intros [? ?]|by intros [? ?]].
    + by rewrite decide_False.
Qed.

(** With one entry per key, the sweep deletes the stale records and no
    other. *)
Lemma sweep_get now st ip :
  NoDup (peerRecord st).*1 →
  pr_get ip (peerRecord (sweep now st))
  = match pr_get ip (peerRecord st) with
    | Some info => if bool_decide (PEER_TIMEOUT_MS < now - lastSeen info) then None
                   else Some info
    | None => None
    end.
Proof.
  intros Hnd. unfold sweep. rewrite sweep_fold.
  pose proof (pr_get_filter_keys (λ k, k ∈ staleKeys now (peerRecord st))
                ip (peerRecord st)) as Hf.
  cbv beta in Hf. rewrite Hf. clear Hf.
  destruct (pr_get ip (peerRecord st)) as [info|] eqn:Hg.
  - case_bool_decide as Hst.
    + rewrite decide_True; [done|]. unfold staleKeys.
      apply list_elem_of_fmap. exists (ip, info). split; [done|].
      apply list_elem_of_filter. split; [done|]. by apply pr_get_Some_elem.
    + rewrite decide_False; [done|]. unfold staleKeys. intros Hin.
      apply list_elem_of_fmap in Hin as ([k info'] & -> & Hin).
      apply list_elem_of_filter in Hin as [Hs Hin]. simpl in *.
      apply (pr_get_elem_NoDup _ _ _ Hnd) in Hin. rewrite Hg in Hin.
      by injection Hin as ->.
  - by destruct (decide _).
Qed.

(** ** How one event changes the registry *)

Lemma onConnection_peerRecord ip now st : peerRecord (onConnection ip now st) = peerRecord st.
Proof.
  unfold onConnection, autoBan. by repeat case_match.
Qed.

Ltac unchanged := exact (ru_none _ _).

Lemma step_registry st e : registry_update st e (peerRecord (step st e)).
Proof.
  destruct e as [ip now|c|c data|c msg|c reply|c| |now]; simpl.
  - rewrite onConnection_peerRecord. unchanged.
  - unfold onTimeout.
    replace (peerRecord _) with (peerRecord st) by (by repeat case_match). unchanged.
  - unfold onData.
    replace (peerRecord _) with (peerRecord st) by (by repeat case_match). unchanged.
  - unfold afterDelay. destruct (sessions st !! c) as [s|] eqn:Hs; [|unchanged].
    destruct (delayed s) as [|n]; [unchanged|].
    destruct msg as [|action]; [unchanged|].
    change (peerRecord (update_session _ _ st)) with (peerRecord st).
    destruct (decide (action = Some "register")) as [->|?].
    { destruct (pr_get _ _) as [info|] eqn:Hg; [|unchanged].
      exact (ru_register_known st c s info Hs Hg). }
    destruct (decide (action = Some "unregister")) as [->|?].
    { destruct (pr_get _ _) as [info|] eqn:Hg; [|unchanged].
      exact (ru_unregister st c s Hs). }
    destruct (decide (action = Some "heartbeat")) as [->|?]; [|unchanged].
    destruct (pr_get _ _) as [info|] eqn:Hg; [|unchanged].
    exact (ru_heartbeat st c s info Hs Hg).
  - unfold afterGeo. destruct (sessions st !! c) as [s|] eqn:Hs; [|unchanged].
    destruct (awaitingGeo s) as [|n]; [unchanged|].
    destruct (getGeo _ _ _) as [g st0] eqn:Hg.
    pose proof (getGeo_result (remoteAddress s) reply st
                  (update_session c (set_awaitingGeo n) st)) as Hr.
    rewrite Hg in Hr. simpl in Hr.
    apply getGeo_frame in Hg as (Hp & _). simpl in Hp.
    destruct g as [g|].
    + change (registry_update st (GeoSettled c reply)
                (pr_set (remoteAddress s)
                   {| geo := g; firstSeen := connectedAt s; lastSeen := connectedAt s |}
                   (peerRecord st0))).
      rewrite Hp. by apply ru_register_new.
    + change (registry_update st (GeoSettled c reply) (peerRecord st0)).
      rewrite Hp. unchanged.
  - unfold onError.
    replace (peerRecord _) with (peerRecord st) by (by repeat case_match). unchanged.
  - unchanged.
  - unfold sweep. rewrite sweep_fold. constructor.
Qed.

(** One record per address. *)
Lemma reachable_NoDup st : reachable st → NoDup (peerRecord st).*1.
Proof.
  revert st. apply reachable_ind; [constructor|].
  intros st e _ Hnd.
  destruct (step_registry st e); auto using pr_set_NoDup.
  - by apply filter_keys_NoDup.
  - by apply filter_keys_NoDup.
Qed.

(** ** Private and loopback addresses *)

Lemma getGeo_private ip reply st g :
  (getGeo ip reply st).1 = Some g → isPrivateIP ip = true → g = dummyGeo.
Proof. unfold getGeo. intros H Hp. rewrite Hp in H. by injection H. Qed.

Lemma private_dummy_set ip v pr :
  private_dummy pr → (isPrivateIP ip = true → geo v = dummyGeo) →
  private_dummy (pr_set ip v pr).
Proof.
  intros Hpr Hv k info Hin Hk.
  apply elem_of_pr_set in Hin as [[= -> ->]|Hin]; [by apply Hv|by eapply Hpr].
Qed.

Lemma private_dummy_filter (P : string * PeerInfo → Prop) `{!∀ e, Decision (P e)} pr :
  private_dummy pr → private_dummy (filter P pr).
Proof.
  intros Hpr k info Hin Hk. apply list_elem_of_filter in Hin as [_ Hin]. by eapply Hpr.
Qed.

Lemma reachable_private_dummy st : reachable st → private_dummy (peerRecord st).
Proof.
  revert st. apply reachable_ind.
  { intros ip info Hin. by apply elem_of_nil in Hin. }
  intros st e _ Hpr.
  destruct (step_registry st e) as [e|c s info Hs Hg|c s reply g Hs Hg|c s info Hs Hg|c s Hs|now].
  - done.
  - apply private_dummy_set; [done|]. simpl. intros Hp.
    eapply Hpr; [by apply pr_get_Some_elem|done].
  - apply private_dummy_set; [done|]. simpl. intros Hp.
    by eapply getGeo_private.
  - apply private_dummy_set; [done|]. simpl. intros Hp.
    eapply Hpr; [by apply pr_get_Some_elem|done].
  - by apply private_dummy_filter.
  - by apply private_dummy_filter.
Qed.

(** The addresses of a ranked list are keys of the table, with a non-zero
    stored coordinate. *)
Lemma elem_of_nearbyPeers p g pr :
  p ∈ nearbyPeers g pr →
  ∃ info, (entry_ip p, info) ∈ pr ∧ entry_geo p = geo info
          ∧ nonzero (latitude (geo info)) && nonzero (longitude (geo info)) = true.
Proof.
  intros Hp. destruct (nearbyPeers_spec g pr) as (_ & _ & Hsub).
  apply Hsub in Hp. unfold rankable in Hp.
  apply list_elem_of_filter in Hp as [Hnz Hp].
  apply list_elem_of_fmap in Hp as ([k info] & -> & Hin).
  by exists info.
Qed.

Lemma reachable_no_private_peers st : reachable st → Forall no_private_peers (wire st).
Proof.
  revert st. apply reachable_ind; [constructor|].
  intros st e Hst Hall.
  destruct (step_wire st e) as [Hw|(w & Hw & _ & _ & Hkind)]; rewrite Hw; [done|].
  apply Forall_app. split; [done|]. apply Forall_singleton.
  intros body p Hbody Hp.
  destruct Hkind as [[Hnone _]|(ip & now & g & Hr & _)]; [congruence|].
  rewrite Hr in Hbody. injection Hbody as <-. simpl in Hp.
  apply elem_of_nearbyPeers in Hp as (info & Hin & _ & Hnz).
  destruct (isPrivateIP (entry_ip p)) eqn:Hpriv; [|done].
  pose proof (reachable_private_dummy _ (reachable_step st e Hst) _ _ Hin Hpriv) as Hd.
  rewrite Hd in Hnz. done.
Qed.

(** C9: in every state the server can reach, a record stored under an
    address that [isPrivateIP] recognises carries the dummy coordinate
    (0, 0); no response ever written lists such an address among its
    peers, and so the response to a register from such an address does not
    list the caller. *)
Theorem C9_private_peers_never_listed (evs : list Event) :
  let st := run init evs in
  (∀ ip info, pr_get ip (peerRecord st) = Some info → isPrivateIP ip = true →
     geo info = {| latitude := 0; longitude := 0 |})
  ∧ (∀ w body p, w ∈ wire st → extraBody (w_resp w) = Some body → p ∈ peers body →
       isPrivateIP (entry_ip p) = false)
  ∧ (∀ w body, w ∈ wire st → extraBody (w_resp w) = Some body →
       isPrivateIP (yourIP body) = true → yourIP body ∉ entry_ip <$> peers body).
Proof.
  intros st. assert (Hst : reachable st) by by exists evs.
  pose proof (reachable_no_private_peers st Hst) as Hall.
  rewrite Forall_forall in Hall.
  split_and!.
  - intros ip info Hg Hp. apply pr_get_Some_elem in Hg.
    exact (reachable_private_dummy st Hst _ _ Hg Hp).
  - intros w body p Hw Hb Hp. by eapply Hall.
  - intros w body Hw Hb Hpriv Hin.
    apply list_elem_of_fmap in Hin as (p & Heq & Hp).
    rewrite Heq, (Hall w Hw body p Hb Hp) in Hpriv. done.
Qed.

(** ** Stale peers *)

Lemma absent_step ip st e :
  pr_get ip (peerRecord st) = None → registers ip st e = false →
  pr_get ip (peerRecord (step st e)) = None.
Proof.
  intros Habs Hreg.
  destruct (step_registry st e) as [e|c s info Hs Hg|c s reply g Hs Hg|c s info Hs Hg|c s Hs|now].
  - done.
  - destruct (decide (remoteAddress s = ip)) as [Heq|Hne]; [congruence|].
    by rewrite pr_get_set_ne.
  - simpl in Hreg. unfold from_address in Hreg. rewrite Hs in Hreg.
    apply bool_decide_eq_false in Hreg. by rewrite pr_get_set_ne.
  - destruct (decide (remoteAddress s = ip)) as [Heq|Hne]; [congruence|].
    by rewrite pr_get_set_ne.
  - rewrite pr_get_delete. by destruct (decide _).
  - pose proof (pr_get_filter_keys (λ k, k ∈ staleKeys now (peerRecord st))
                  ip (peerRecord st)) as Hf.
    cbv beta in Hf. rewrite Hf. by destruct (decide _).
Qed.

Lemma absent_not_ranked ip pr : pr_get ip pr = None → ip ∉ entry_ip <$> rankable pr.
Proof.
  intros Habs Hin. apply pr_get_None in Habs. destruct Habs.
  apply list_elem_of_fmap in Hin as (p & -> & Hp).
  unfold rankable in Hp. apply list_elem_of_filter in Hp as [_ Hp].
  apply list_elem_of_fmap in Hp as ([k info] & -> & Hin). simpl.
  apply list_elem_of_fmap. by exists (k, info).
Qed.

Lemma absent_not_listed ip st e w :
  pr_get ip (peerRecord (step st e)) = None →
  wire (step st e) = wire st ++ [w] → not_listed ip w.
Proof.
  intros Habs Hw body Hbody Hin.
  destruct (step_wire st e) as [Hsame|(w' & Hw' & _ & _ & Hkind)].
  { rewrite Hsame in Hw. apply (f_equal length) in Hw.
    rewrite length_app in Hw. simpl in Hw. lia. }
  rewrite Hw in Hw'. apply app_inj_tail in Hw' as [_ <-].
  destruct Hkind as [[Hnone _]|(k & now & g & Hr & _)]; [congruence|].
  rewrite Hr in Hbody. injection Hbody as <-. simpl in Hin.
  apply (absent_not_ranked _ _ Habs).
  apply list_elem_of_fmap in Hin as (p & -> & Hp).
  apply list_elem_of_fmap. exists p. split; [done|].
  by apply (nearbyPeers_spec g (peerRecord (step st e))).
Qed.

Lemma absent_run ip evs : ∀ st,
  pr_get ip (peerRecord st) = None → no_register ip st evs = true →
  pr_get ip (peerRecord (run st evs)) = None
  ∧ ∃ new, wire (run st evs) = wire st ++ new ∧ Forall (not_listed ip) new.
Proof.
  induction evs as [|e evs IH]; intros st Habs Hq; simpl.
  - split; [done|]. exists []. by rewrite app_nil_r.
  - simpl in Hq. apply andb_true_iff in Hq as [Hreg Hq].
    apply negb_true_iff in Hreg.
    pose proof (absent_step ip st e Habs Hreg) as Habs'.
    destruct (IH (step st e) Habs' Hq) as (Hfin & new & Hnew & Hall).
    split; [done|].
    destruct (step_wire st e) as [Hsame|(w & Hw & _)].
    + exists new. by rewrite Hnew, Hsame.
    + exists (w :: new). split.
      * by rewrite Hnew, Hw, <- app_assoc.
      * constructor; [by eapply absent_not_listed|done].
Qed.

(** C7: a sweep at time [now] deletes the record of every address whose
    [lastSeen] (the time of its last register or heartbeat connection) is
    more than [PEER_TIMEOUT_MS] behind, strictly, and keeps every other
    record as it is; as long as no register request from a deleted address
    is carried on, the address stays out of [peerRecord], out of the ranking
    candidates and out of the [peers] of every response written after
    the sweep. *)
Theorem C7_stale_peer_swept st now ip info :
  reachable st →
  pr_get ip (peerRecord st) = Some info →
  PEER_TIMEOUT_MS < now - lastSeen info →
  let st1 := step st (Sweep now) in
  pr_get ip (peerRecord st1) = None
  ∧ (∀ ip', pr_get ip' (peerRecord st1)
            = match pr_get ip' (peerRecord st) with
              | Some i => if bool_decide (PEER_TIMEOUT_MS < now - lastSeen i) then None
                          else Some i
              | None => None
              end)
  ∧ (∀ evs, no_register ip st1 evs = true →
       pr_get ip (peerRecord (run st1 evs)) = None
       ∧ (ip ∉ entry_ip <$> rankable (peerRecord (run st1 evs)))
       ∧ (∀ w, w ∈ drop (length (wire st1)) (wire (run st1 evs)) → not_listed ip w)).
Proof.
  intros Hst Hg Hstale st1.
  pose proof (reachable_NoDup st Hst) as Hnd.
  assert (Hgone : pr_get ip (peerRecord st1) = None).
  { subst st1. simpl. rewrite sweep_get, Hg by done. by rewrite bool_decide_true. }
  split_and!.
  - done.
  - intros ip'. subst st1. simpl. by rewrite sweep_get.
  - intros evs Hq.
    destruct (absent_run ip evs st1 Hgone Hq) as (Hfin & new & Hnew & Hall).
    split_and!; [done|by apply absent_not_ranked|].
    intros w Hw. rewrite Hnew, drop_app_length in Hw.
    rewrite Forall_forall in Hall. by apply Hall.
Qed.

(** ** Responses per connection *)

Lemma keeps_ended_refl l : keeps_ended l l.
Proof. intros c s Hs He. by exists s. Qed.

Lemma keeps_ended_trans l1 l2 l3 :
  keeps_ended l1 l2 → keeps_ended l2 l3 → keeps_ended l1 l3.
Proof.
  intros H12 H23 c s Hs He.
  destruct (H12 c s Hs He) as (s2 & Hs2 & He2). by apply (H23 c s2).
Qed.

Lemma keeps_ended_alter f i l :
  (∀ s, ended s = true → ended (f s) = true) → keeps_ended l (alter f i l).
Proof.
  intros Hf c s Hs He. rewrite list_lookup_alter.
  destruct (decide (i = c)) as [->|Hne]; [|by exists s].
  rewrite Hs. exists (f s). split; [done|by apply Hf].
Qed.

Lemma keeps_ended_snoc l s : keeps_ended l (l ++ [s]).
Proof. intros c s0 Hs He. exists s0. split; [|done]. by apply lookup_app_l_Some. Qed.

Ltac ended_mono :=
  repeat first
    [ apply keeps_ended_refl
    | apply keeps_ended_snoc
    | eapply keeps_ended_trans; [|apply keeps_ended_alter; by intros []] ].

Lemma step_keeps_ended st e : keeps_ended (sessions st) (sessions (step st e)).
Proof.
  destruct e as [ip now|c|c data|c msg|c reply|c| |now]; simpl.
  - unfold onConnection, autoBan, push, prune.
    repeat case_match; unfold_prims; simpl; ended_mono.
  - unfold onTimeout. repeat case_match; unfold_prims; simpl; ended_mono.
  - unfold onData. repeat case_match; unfold_prims; simpl; ended_mono.
  - unfold afterDelay, registerPeer. repeat case_match; unfold_prims; simpl; ended_mono.
  - unfold afterGeo. destruct (sessions st !! c) as [s|]; [|ended_mono].
    destruct (awaitingGeo s) as [|n]; [ended_mono|].
    destruct (getGeo _ _ _) as [g st0] eqn:Hg.
    apply getGeo_frame in Hg as (_ & _ & _ & _ & Hss & _). simpl in Hss.
    destruct g; unfold registerPeer; unfold_prims; simpl; rewrite Hss; ended_mono.
  - unfold onError. repeat case_match; unfold_prims; simpl; ended_mono.
  - ended_mono.
  - destruct (sweep_frame now st) as (_ & -> & _). ended_mono.
Qed.

Lemma step_is_ended c st e : is_ended c st = true → is_ended c (step st e) = true.
Proof.
  unfold is_ended. destruct (sessions st !! c) as [s|] eqn:Hs; [|done].
  intros He. destruct (step_keeps_ended st e c s Hs He) as (s' & -> & He'). done.
Qed.

Lemma reachable_written_ended st : reachable st → written_ended st.
Proof.
  revert st. apply (reachable_ind written_ended).
  { intros w Hw. by apply elem_of_nil in Hw. }
  intros st e _ IH w Hw.
  destruct (step_wire st e) as [Hsame|(w' & Hw' & _ & Hend & _)].
  - rewrite Hsame in Hw. by apply step_is_ended, IH.
  - rewrite Hw' in Hw. apply elem_of_app in Hw as [Hw|Hw].
    + by apply step_is_ended, IH.
    + apply list_elem_of_singleton in Hw. by subst w'.
Qed.

Lemma delivered_snoc c st st' w :
  wire st' = wire st ++ [w] →
  delivered c st' =
    delivered c st ++ (if decide (w_conn w = c ∧ w_afterEnd w = false) then [w_resp w] else []).
Proof.
  intros Hw. unfold delivered. rewrite Hw, filter_app, fmap_app. f_equal.
  rewrite filter_cons, filter_nil. by destruct (decide _).
Qed.

Lemma delivered_nil c st :
  (∀ w, w ∈ wire st → w_conn w ≠ c) → delivered c st = [].
Proof.
  intros Hno. unfold delivered.
  induction (wire st) as [|w l IH]; [done|].
  rewrite filter_cons, decide_False.
  - apply IH. intros w' Hw'. apply Hno. by apply list_elem_of_further.
  - intros [Hc _]. by apply (Hno w); [apply list_elem_of_here|].
Qed.

Lemma reachable_delivered_once st : reachable st → ∀ c, (length (delivered c st) ≤ 1)%nat.
Proof.
  revert st.
  apply (reachable_ind (λ st, ∀ c, (length (delivered c st) ≤ 1)%nat));
    [intros c; simpl; lia|].
  intros st e Hst IH c.
  destruct (step_wire st e) as [Hsame|(w & Hw & Hafter & _)].
  { unfold delivered. rewrite Hsame. apply IH. }
  rewrite (delivered_snoc c st _ w Hw).
  destruct (decide _) as [[Hc Hfresh]|_]; [|rewrite app_nil_r; apply IH].
  rewrite delivered_nil; [simpl; lia|].
  intros w0 Hw0 Hc0.
  pose proof (reachable_written_ended st Hst w0 Hw0) as Hended.
  rewrite Hc0, <- Hc, <- Hafter, Hfresh in Hended. done.
Qed.

(** A second call of [sock.write] on a connection comes after the
    [sock.end] that followed the first. *)
Lemma reachable_later_after_end st :
  reachable st →
  ∀ i j w1 w2, (i < j)%nat → wire st !! i = Some w1 → wire st !! j = Some w2 →
               w_conn w1 = w_conn w2 → w_afterEnd w2 = true.
Proof.
  revert st.
  apply (reachable_ind (λ st, ∀ i j w1 w2, (i < j)%nat →
           wire st !! i = Some w1 → wire st !! j = Some w2 →
           w_conn w1 = w_conn w2 → w_afterEnd w2 = true)).
  { intros i j w1 w2 _ H1. by destruct i. }
  intros st e Hst IH i j w1 w2 Hij H1 H2 Hc.
  destruct (step_wire st e) as [Hsame|(w & Hw & Hafter & _)].
  { rewrite Hsame in H1, H2. exact (IH i j w1 w2 Hij H1 H2 Hc). }
  rewrite Hw in H1, H2.
  destruct (decide (j < length (wire st))%nat) as [Hj|Hj].
  - rewrite lookup_app_l in H1, H2 by lia. exact (IH i j w1 w2 Hij H1 H2 Hc).
  - assert (j = length (wire st)) as ->.
    { apply lookup_lt_Some in H2. rewrite length_app in H2. simpl in H2. lia. }
    rewrite lookup_app_l in H1 by lia.
    rewrite lookup_app_r, Nat.sub_diag in H2 by lia. injection H2 as ->.
    rewrite Hafter, <- Hc. apply (reachable_written_ended st Hst).
    apply list_elem_of_lookup. by exists i.
Qed.

Lemma responses_snoc c r st st' b :
  wire st' = wire st ++ [{| w_conn := c; w_afterEnd := b; w_resp := r |}] →
  responses c st' = responses c st ++ [r].
Proof.
  intros Hw. unfold responses. rewrite Hw, filter_app, fmap_app. f_equal.
  rewrite filter_cons, filter_nil. simpl. by rewrite decide_True.
Qed.

(** The three error paths of an attached socket each write their status. *)
Lemma error_paths_respond st c s :
  sessions st !! c = Some s → listening s = true →
  responses c (step st (SockTimeout c))
    = responses c st ++ [buildResponse ERROR_IDLE_TIMEOUT None]
  ∧ (∀ data, (MAX_PAYLOAD < String.length (dataBuffer s ++ data))%nat →
       responses c (step st (SockData c data))
         = responses c st ++ [buildResponse ERROR_PAYLOAD_TOO_LARGE None])
  ∧ (∀ n, delayed s = S n →
       responses c (step st (FloodDelayElapsed c ParseError))
         = responses c st ++ [buildResponse ERROR_INVALID_JSON None]).
Proof.
  intros Hs Hl. split_and!.
  - simpl. unfold onTimeout. rewrite Hs, Hl. by eapply responses_snoc.
  - intros data Hlen. simpl. unfold onData. rewrite Hs, Hl.
    rewrite bool_decide_true by done. by eapply responses_snoc.
  - intros n Hn. simpl. unfold afterDelay. rewrite Hs, Hn. by eapply responses_snoc.
Qed.

(** C2 (amended): every event makes at most one call of [sock.write], and
    the socket written to has been ended when the event is over; an idle
    timeout, an oversized payload and a parse error each write exactly
    their status; on every connection at most one response is written
    before the socket is ended, every later call of [sock.write] on it is
    made after [sock.end], and a connection that has been written to is
    ended. *)
Theorem C2_one_response_before_end (evs : list Event) (e : Event) :
  let st := run init evs in
  (wire (step st e) = wire st
   ∨ ∃ w, wire (step st e) = wire st ++ [w] ∧ is_ended (w_conn w) (step st e) = true)
  ∧ (∀ c s, sessions st !! c = Some s → listening s = true →
       responses c (step st (SockTimeout c))
         = responses c st ++ [buildResponse ERROR_IDLE_TIMEOUT None]
       ∧ (∀ data, (MAX_PAYLOAD < String.length (dataBuffer s ++ data))%nat →
            responses c (step st (SockData c data))
              = responses c st ++ [buildResponse ERROR_PAYLOAD_TOO_LARGE None])
       ∧ (∀ n, delayed s = S n →
            responses c (step st (FloodDelayElapsed c ParseError))
              = responses c st ++ [buildResponse ERROR_INVALID_JSON None]))
  ∧ (∀ c, (length (delivered c st) ≤ 1)%nat)
  ∧ (∀ c i j w1 w2, (i < j)%nat →
       wire st !! i = Some w1 → wire st !! j = Some w2 →
       w_conn w1 = c → w_conn w2 = c → w_afterEnd w2 = true)
  ∧ (∀ c, responses c st ≠ [] → is_ended c st = true).
Proof.
  intros st. assert (Hst : reachable st) by by exists evs.
  split_and!.
  - destruct (step_wire st e) as [?|(w & ? & _ & ? & _)]; [by left|right; by exists w].
  - intros c s. apply error_paths_respond.
  - exact (reachable_delivered_once st Hst).
  - intros c i j w1 w2 Hij H1 H2 Hc1 Hc2.
    eapply (reachable_later_after_end st Hst i j w1 w2); congruence.
  - intros c Hresp. unfold responses in Hresp.
    destruct (filter _ (wire st)) as [|w l] eqn:Hf; [done|].
    assert (Hw : w ∈ filter (λ w, w_conn w = c) (wire st)).
    { rewrite Hf. apply list_elem_of_here. }
    apply list_elem_of_filter in Hw as [<- Hw].
    by apply reachable_written_ended.
Qed.

(** * The rest of the server, verified *)

(** ** Events and the connection they belong to *)

Lemma lookup_snoc_ne {A} (l : list A) (x : A) (c : nat) :
  c ≠ length l → (l ++ [x]) !! c = l !! c.
Proof.
  intros Hc. destruct (decide (c < length l)%nat) as [Hlt|Hge].
  - by rewrite lookup_app_l.
  - rewrite !lookup_ge_None_2; [done|lia|]. rewrite length_app. simpl. lia.
Qed.

(** An event leaves the sessions of the other connections alone. *)
Lemma step_other_session st e c :
  event_conn st e ≠ Some c → sessions (step st e) !! c = sessions st !! c.
Proof.
  destruct e as [ip now|c0|c0 data|c0 msg|c0 reply|c0| |now]; simpl; intros Hc.
  - assert (c ≠ length (sessions st)) by congruence.
    unfold onConnection, autoBan, push, prune.
    repeat case_match; unfold_prims; simpl;
      rewrite ?list_lookup_alter_ne by done; by apply lookup_snoc_ne.
  - assert (c0 ≠ c) by congruence. unfold onTimeout.
    repeat case_match; unfold_prims; simpl; by rewrite ?list_lookup_alter_ne by done.
  - assert (c0 ≠ c) by congruence. unfold onData.
    repeat case_match; unfold_prims; simpl; by rewrite ?list_lookup_alter_ne by done.
  - assert (c0 ≠ c) by congruence. unfold afterDelay, registerPeer.
    repeat case_match; unfold_prims; simpl; by rewrite ?list_lookup_alter_ne by done.
  - assert (c0 ≠ c) by congruence. unfold afterGeo.
    destruct (sessions st !! c0) as [s|]; [|done].
    destruct (awaitingGeo s) as [|n]; [done|].
    destruct (getGeo _ _ _) as [g st0] eqn:Hg.
    apply getGeo_frame in Hg as (_ & _ & _ & _ & Hss & _). simpl in Hss.
    destruct g; unfold registerPeer; unfold_prims; simpl; rewrite Hss;
      by rewrite ?list_lookup_alter_ne by done.
  - unfold onError. by repeat case_match.
  - done.
  - by destruct (sweep_frame now st) as (_ & -> & _).
Qed.

Lemma respond_written st st0 c s r :
  sessions st0 !! c = Some s →
  wire st0 = wire st → is_ended c st0 = is_ended c st →
  plain_response r →
  written_by st (sock_end c (sock_write c r st0)) c r.
Proof.
  intros Hs Hw He Hr. split; [|by left].
  unfold_prims. simpl. by rewrite Hw, He.
Qed.

Lemma sock_end_written st st1 c r :
  written_by st st1 c r → written_by st (sock_end c st1) c r.
Proof.
  intros [Hw Hkind]. split; [done|].
  destruct Hkind as [?|(s' & g & Hs' & Hr & Hg)]; [by left|right].
  exists (mark_ended s'), g. split_and!; [|done..].
  unfold sock_end, update_session. simpl. by rewrite list_lookup_alter_eq, Hs'.
Qed.

Lemma registerPeer_written st st0 c s g :
  sessions st0 !! c = Some s →
  wire st0 = wire st → is_ended c st0 = is_ended c st →
  written_by st
    (sock_end c (registerPeer c (remoteAddress s) (connectedAt s) g st0)) c
    (buildResponse SUCCESS_REGISTER
       (Some {| yourIP := remoteAddress s;
                peers := nearbyPeers g
                  (pr_set (remoteAddress s)
                     {| geo := g; firstSeen := connectedAt s; lastSeen := connectedAt s |}
                     (peerRecord st0)) |})).
Proof.
  intros Hs Hw He. split.
  - unfold registerPeer. unfold_prims. simpl. rewrite Hw. do 3 f_equal.
    rewrite <- He. unfold is_ended. done.
  - right. exists (mark_ended s), g. split_and!.
    + unfold registerPeer. unfold_prims. simpl. by rewrite list_lookup_alter_eq, Hs.
    + done.
    + unfold registerPeer. unfold_prims. simpl. apply pr_get_set_eq.
Qed.

Lemma onConnection_written ip now st :
  wire (onConnection ip now st) = wire st
  ∨ ∃ r, written_by st (onConnection ip now st) (length (sessions st)) r.
Proof.
  unfold onConnection.
  set (c := length (sessions st)). set (addr := default "" ip).
  set (st0 := set_sessions _ st).
  assert (Hs : ∀ st1, sessions st1 = sessions st0 →
                 sessions st1 !! c = Some (new_session addr now)).
  { intros st1 ->. subst st0 c. simpl.
    rewrite lookup_app_r by lia. by rewrite Nat.sub_diag. }
  assert (He : ∀ st1, sessions st1 = sessions st0 → is_ended c st1 = is_ended c st).
  { intros st1 H1. unfold is_ended. rewrite (Hs st1 H1).
    subst c. by rewrite lookup_ge_None_2 by lia. }
  destruct (_ || _); [by left|].
  destruct (bool_decide (MAX_CONN_PER_SECOND < _)).
  { right. eexists. eapply respond_written; [by apply Hs|done|by apply He|plain]. }
  destruct (bool_decide (RATE_LIMIT ≤ _)%nat).
  - right. exists (buildResponse ERROR_RATE_LIMIT None).
    destruct (respond_written st
                (appendLog ABUSIVE_IP_LOG ("IP rate limit exceeded: " ++ addr)
                   (prune addr now (set_globalRequestCount
                                      (globalRequestCount st0 + 1) st0)))
                c _ (buildResponse ERROR_RATE_LIMIT None)
                (Hs _ eq_refl) eq_refl (He _ eq_refl)) as [Hw Hk]; [plain|].
    split; [exact Hw|exact Hk].
  - left. unfold autoBan. by destruct (bool_decide _).
Qed.

(** What an event writes it writes to its own connection. *)
Lemma step_written st e :
  wire (step st e) = wire st
  ∨ ∃ c r, event_conn st e = Some c ∧ written_by st (step st e) c r.
Proof.
  destruct e as [ip now|c|c data|c msg|c reply|c| |now]; simpl.
  - destruct (onConnection_written ip now st) as [?|[r Hr]]; [by left|].
    right. by eexists _, r.
  - unfold onTimeout. destruct (sessions st !! c) as [s|] eqn:Hs; [|by left].
    destruct (listening s); [|by left]. right. eexists c, _. split; [done|].
    eapply respond_written; [exact Hs|done|done|plain].
  - unfold onData. destruct (sessions st !! c) as [s|] eqn:Hs; [|by left].
    destruct (listening s); [|by left].
    destruct (bool_decide _); [|by left]. right. eexists c, _. split; [done|].
    eapply respond_written; [|done| |plain].
    + unfold update_session. simpl. by rewrite list_lookup_alter_eq, Hs.
    + unfold is_ended, update_session. simpl. by rewrite list_lookup_alter_eq, Hs.
  - unfold afterDelay. destruct (sessions st !! c) as [s|] eqn:Hs; [|by left].
    destruct (delayed s) as [|n]; [by left|].
    set (st0 := update_session c (set_delayed n) st).
    assert (Hs0 : sessions st0 !! c = Some (set_delayed n s)).
    { subst st0. unfold update_session. simpl. by rewrite list_lookup_alter_eq, Hs. }
    assert (He0 : is_ended c st0 = is_ended c st).
    { unfold is_ended. by rewrite Hs0, Hs. }
    destruct msg as [|action].
    { right. eexists c, _. split; [done|].
      eapply respond_written; [exact Hs0|done|done|plain]. }
    repeat case_decide.
    + destruct (pr_get _ _); [|by left].
      right. eexists c, _. split; [done|].
      exact (registerPeer_written st st0 c _ _ Hs0 eq_refl He0).
    + right. eexists c, _. split; [done|]. destruct (pr_get _ _);
        (eapply respond_written; [exact Hs0|done|done|plain]).
    + right. eexists c, _. split; [done|]. destruct (pr_get _ _);
        (eapply respond_written; [exact Hs0|done|done|plain]).
    + right. eexists c, _. split; [done|].
      eapply respond_written; [exact Hs0|done|done|plain].
  - unfold afterGeo. destruct (sessions st !! c) as [s|] eqn:Hs; [|by left].
    destruct (awaitingGeo s) as [|n]; [by left|].
    destruct (getGeo _ _ _) as [g st0] eqn:Hg.
    apply getGeo_frame in Hg as (_ & _ & _ & _ & Hss & Hw). simpl in Hss, Hw.
    assert (Hs0 : sessions st0 !! c = Some (set_awaitingGeo n s)).
    { by rewrite Hss, list_lookup_alter_eq, Hs. }
    assert (He0 : is_ended c st0 = is_ended c st).
    { unfold is_ended. by rewrite Hs0, Hs. }
    right. destruct g as [g|].
    + eexists c, _. split; [done|].
      exact (registerPeer_written st st0 c _ g Hs0 Hw He0).
    + eexists c, _. split; [done|]. apply sock_end_written.
      eapply respond_written; [exact Hs0|done|done|plain].
  - unfold onError. left. by repeat case_match.
  - by left.
  - left. apply sweep_frame.
Qed.

Lemma responses_other st e c :
  event_conn st e ≠ Some c → responses c (step st e) = responses c st.
Proof.
  intros Hc. unfold responses.
  destruct (step_written st e) as [->|(c0 & r & Hc0 & Hw & _)]; [done|].
  rewrite Hw, filter_app, filter_cons, filter_nil. simpl.
  rewrite decide_False by congruence. by rewrite app_nil_r.
Qed.

(** X1: an event never touches the session or the responses of a
    connection it does not belong to. *)
Theorem session_isolation st e c :
  event_conn st e ≠ Some c →
  sessions (step st e) !! c = sessions st !! c
  ∧ responses c (step st e) = responses c st.
Proof. intros Hc. split; [by apply step_other_session|by apply responses_other]. Qed.

(** The events of an unattached socket find no handler and nothing to
    resume. *)
Lemma unattached_step st e c s :
  sessions st !! c = Some s → unattached s →
  sessions (step st e) !! c = Some s ∧ responses c (step st e) = responses c st.
Proof.
  intros Hs (Hl & Hd & Ha).
  destruct (decide (event_conn st e = Some c)) as [Hc|Hc].
  - assert (step st e = st) as ->; [|done].
    destruct e as [ip now|c0|c0 data|c0 msg|c0 reply|c0| |now]; simpl in *; simplify_eq.
    + apply lookup_lt_Some in Hs. lia.
    + unfold onTimeout. by rewrite Hs, Hl.
    + unfold onData. by rewrite Hs, Hl.
    + unfold afterDelay. by rewrite Hs, Hd.
    + unfold afterGeo. by rewrite Hs, Ha.
    + unfold onError. by rewrite Hs, Hl.
  - by rewrite (step_other_session st e c Hc), (responses_other st e c Hc).
Qed.

Lemma unattached_run evs : ∀ st c s,
  sessions st !! c = Some s → unattached s →
  sessions (run st evs) !! c = Some s ∧ responses c (run st evs) = responses c st.
Proof.
  induction evs as [|e evs IH]; intros st c s Hs Hu; simpl; [done|].
  destruct (unattached_step st e c s Hs Hu) as [Hs' Hr'].
  destruct (IH (step st e) c s Hs' Hu) as [Hs'' Hr'']. by rewrite Hr'', Hr'.
Qed.

(** What the connection handler leaves behind for the new socket. *)
Lemma onConnection_outcome ip now st :
  ∃ s', sessions (onConnection ip now st) !! length (sessions st) = Some s'
        ∧ ((listening s' = true ∧ ended s' = false ∧ delayed s' = 0%nat
            ∧ dataBuffer s' = "" ∧ wire (onConnection ip now st) = wire st)
           ∨ (unattached s' ∧ ended s' = true)).
Proof.
  unfold onConnection, autoBan, push, prune.
  repeat case_match; unfold_prims; simpl; rewrite alter_snoc;
    rewrite lookup_app_r by lia; rewrite Nat.sub_diag; simpl;
    eexists; (split; [reflexivity|]); simpl;
    first [by left | by right].
Qed.

(** X2: the connection handler either attaches the socket handlers and
    writes nothing, or ends the socket without attaching them; in the
    second case (dropped, global limit, rate limit) nothing that happens
    later changes that session or adds a response to it. *)
Theorem guard_outcome_is_final st ip now evs :
  let c := length (sessions st) in
  let st' := step st (Connection ip now) in
  ∃ s', sessions st' !! c = Some s'
        ∧ ((listening s' = true ∧ ended s' = false ∧ wire st' = wire st)
           ∨ (listening s' = false ∧ ended s' = true
              ∧ sessions (run st' evs) !! c = Some s'
              ∧ responses c (run st' evs) = responses c st')).
Proof.
  intros c st'. destruct (onConnection_outcome ip now st) as (s' & Hs' & Hkind).
  exists s'. split; [done|].
  destruct Hkind as [(? & ? & _ & _ & ?)|[Hu He]]; [by left|right].
  destruct (unattached_run evs st' c s' Hs' Hu) as [? ?].
  by destruct Hu as (? & _).
Qed.

(** ** The rate window and the global counter *)

(** Past the first two guards the stored sequence of the source becomes
    its in-window part followed by [now], on either branch. *)
Lemma onConnection_clientRecord st ip now :
  ip ≠ "" → is_banned (banList st) ip now = false →
  globalRequestCount st < MAX_CONN_PER_SECOND →
  clientRecord (onConnection (Some ip) now st)
  = <[ip := filter (λ ts, now - ts < WINDOW_MS) (window_of (clientRecord st) ip) ++ [now]]>
      (clientRecord st).
Proof.
  intros Hip Hban Hglobal.
  destruct (onConnection_guards_pass st ip now Hip Hban Hglobal) as [Hg1 Hg2].
  unfold onConnection. change (default "" (Some ip)) with ip.
  change (banList (set_sessions _ st)) with (banList st). rewrite Hg1.
  change (globalRequestCount (set_globalRequestCount ?n _)) with n.
  change (globalRequestCount (set_sessions _ st)) with (globalRequestCount st).
  rewrite Hg2.
  assert (Hfin : ∀ st0 : Server,
            clientRecord (push ip now (prune ip now st0))
            = <[ip := filter (λ ts, now - ts < WINDOW_MS) (window_of (clientRecord st0) ip)
                      ++ [now]]> (clientRecord st0)).
  { intros st0. unfold push, prune, window_of. simpl.
    rewrite lookup_insert_eq. simpl. apply insert_insert_eq. }
  destruct (bool_decide (RATE_LIMIT ≤ _)%nat).
  - exact (Hfin _).
  - unfold autoBan. destruct (bool_decide (_ < _)%nat); exact (Hfin _).
Qed.

(** X3: after a connection that gets past the ban check and the global
    limit, admitted or not, the sequence stored for its source holds only
    timestamps less than [WINDOW_MS] before [now], ends with [now] and has
    grown by at most one entry; the sequences of all other sources are
    untouched. *)
Theorem window_after_connection st ip now :
  ip ≠ "" → is_banned (banList st) ip now = false →
  globalRequestCount st < MAX_CONN_PER_SECOND →
  let st' := step st (Connection (Some ip) now) in
  Forall (λ ts, now - ts < WINDOW_MS) (window_of (clientRecord st') ip)
  ∧ last (window_of (clientRecord st') ip) = Some now
  ∧ (length (window_of (clientRecord st') ip)
     ≤ S (length (window_of (clientRecord st) ip)))%nat
  ∧ (∀ ip', ip' ≠ ip → clientRecord st' !! ip' = clientRecord st !! ip').
Proof.
  intros Hip Hban Hglobal st'. subst st'. simpl.
  rewrite (onConnection_clientRecord st ip now Hip Hban Hglobal).
  assert (Hwin : ∀ l, window_of (<[ip := l]> (clientRecord st)) ip = l).
  { intros l. unfold window_of. by rewrite lookup_insert_eq. }
  rewrite !Hwin.
  split_and!.
  - apply Forall_app. split.
    + apply Forall_forall. intros ts Hts. by apply list_elem_of_filter in Hts as [? _].
    + apply Forall_singleton. unfold WINDOW_MS. lia.
  - apply last_snoc.
  - rewrite length_app. simpl.
    pose proof (length_filter (λ ts, now - ts < WINDOW_MS)
                  (window_of (clientRecord st) ip)). lia.
  - intros ip' Hne. by rewrite lookup_insert_ne.
Qed.

Lemma filter_window_none (now : Z) (l : list Z) :
  Forall (λ ts, WINDOW_MS ≤ now - ts) l →
  filter (λ ts, now - ts < WINDOW_MS) l = [].
Proof.
  induction 1 as [|ts l Hts _ IH]; [done|].
  rewrite filter_cons, decide_False by lia. done.
Qed.

(** X4: a source whose stored timestamps are all [WINDOW_MS] or more
    behind is admitted again, however many of them there are: nothing is
    written, the handlers are attached, and the stored sequence is
    restarted with [now] alone. *)
Theorem quiet_window_readmits st ip now :
  ip ≠ "" → is_banned (banList st) ip now = false →
  globalRequestCount st < MAX_CONN_PER_SECOND →
  Forall (λ ts, WINDOW_MS ≤ now - ts) (window_of (clientRecord st) ip) →
  let st' := step st (Connection (Some ip) now) in
  window_of (clientRecord st') ip = [now]
  ∧ wire st' = wire st
  ∧ sessions st' = sessions st ++ [attach (new_session ip now)].
Proof.
  intros Hip Hban Hglobal Hold st'.
  pose proof (filter_window_none now _ Hold) as Hf.
  destruct (connection_accepted st ip now Hip Hban Hglobal) as (H1 & _ & _ & H4 & H5).
  { rewrite Hf. unfold RATE_LIMIT. simpl. lia. }
  rewrite Hf in H1. done.
Qed.

(** X5: at or above [MAX_CONN_PER_SECOND] counted connections, a
    connection with an address gets ERROR_GLOBAL_DOS and is ended without
    handlers; it is counted itself, but leaves no timestamp in the rate
    window of its source and changes neither the registry nor the ban
    table. *)
Theorem global_limit_rejects st ip now :
  ip ≠ "" → is_banned (banList st) ip now = false →
  MAX_CONN_PER_SECOND ≤ globalRequestCount st →
  let st' := step st (Connection (Some ip) now) in
  wire st' = wire st ++ [{| w_conn := length (sessions st); w_afterEnd := false;
                            w_resp := buildResponse ERROR_GLOBAL_DOS None |}]
  ∧ sessions st' = sessions st ++ [mark_ended (new_session ip now)]
  ∧ globalRequestCount st' = globalRequestCount st + 1
  ∧ clientRecord st' = clientRecord st
  ∧ peerRecord st' = peerRecord st
  ∧ banList st' = banList st.
Proof.
  intros Hip Hban Hglobal st'. subst st'. simpl.
  unfold onConnection. change (default "" (Some ip)) with ip.
  change (banList (set_sessions _ st)) with (banList st). rewrite Hban.
  simpl. rewrite (bool_decide_false (ip = "")) by done. simpl.
  rewrite bool_decide_true by lia.
  unfold sock_write.
  change (is_ended _ _) with
    (is_ended (length (sessions st))
       (set_sessions (sessions st ++ [new_session ip now]) st)).
  rewrite is_ended_snoc.
  unfold_prims. simpl. by rewrite alter_snoc.
Qed.

Lemma step_counter st e :
  banList st = ∅ → is_reset e = false →
  globalRequestCount (step st e)
  = globalRequestCount st + (if addressed e then 1 else 0).
Proof.
  intros Hb Hr.
  destruct e as [ip now|c|c data|c msg|c reply|c| |now]; simpl in *.
  - unfold onConnection. change (banList (set_sessions _ st)) with (banList st).
    unfold is_banned. rewrite Hb, lookup_empty, orb_false_r.
    destruct (falsy_ip ip); simpl; [lia|].
    unfold autoBan. by repeat case_match.
  - unfold onTimeout. repeat case_match; simpl; lia.
  - unfold onData. repeat case_match; simpl; lia.
  - unfold afterDelay. repeat case_match; simpl; lia.
  - unfold afterGeo. destruct (sessions st !! c) as [s|]; [|lia].
    destruct (awaitingGeo s); [lia|].
    destruct (getGeo _ _ _) as [g st'] eqn:Hg.
    apply getGeo_frame in Hg as (_ & _ & _ & Hn & _).
    destruct g; simpl; rewrite Hn; simpl; lia.
  - unfold onError. repeat case_match; simpl; lia.
  - done.
  - destruct (sweep_frame now st) as (_ & _ & _ & ->). lia.
Qed.

Lemma run_counter evs : ∀ st,
  banList st = ∅ → Forall (λ e, is_reset e = false) evs →
  globalRequestCount (run st evs)
  = globalRequestCount st + Z.of_nat (length (filter (λ e, addressed e = true) evs)).
Proof.
  induction evs as [|e evs IH]; intros st Hb Hall; simpl; [lia|].
  apply Forall_cons in Hall as [He Hall].
  rewrite IH; [|by rewrite step_banList|done].
  rewrite (step_counter st e Hb He), filter_cons.
  destruct (decide (addressed e = true)) as [Ha|Ha].
  - rewrite Ha. simpl. lia.
  - apply not_true_is_false in Ha. rewrite Ha. lia.
Qed.

(** Past the global limit a connection is admitted or rate limited. *)
Lemma connection_passes_global st ip now :
  ip ≠ "" → is_banned (banList st) ip now = false →
  globalRequestCount st < MAX_CONN_PER_SECOND →
  wire (step st (Connection (Some ip) now)) = wire st
  ∨ wire (step st (Connection (Some ip) now))
    = wire st ++ [{| w_conn := length (sessions st); w_afterEnd := false;
                     w_resp := buildResponse ERROR_RATE_LIMIT None |}].
Proof.
  intros Hip Hban Hglobal.
  set (w := filter (λ ts, now - ts < WINDOW_MS) (window_of (clientRecord st) ip)).
  destruct (decide (length w < RATE_LIMIT)%nat) as [Hw|Hw].
  - left. by destruct (connection_accepted st ip now Hip Hban Hglobal Hw) as (_ & _ & _ & ? & _).
  - right. destruct (connection_rate_limited st ip now Hip Hban Hglobal) as (_ & _ & _ & ? & _);
      [fold w; lia|done].
Qed.

Lemma onConnection_global_reject st ip now :
  ip ≠ "" → is_banned (banList st) ip now = false →
  MAX_CONN_PER_SECOND ≤ globalRequestCount st →
  wire (step st (Connection (Some ip) now))
  = wire st ++ [{| w_conn := length (sessions st); w_afterEnd := false;
                   w_resp := buildResponse ERROR_GLOBAL_DOS None |}].
Proof.
  intros Hip Hban Hglobal. simpl.
  unfold onConnection. change (default "" (Some ip)) with ip.
  change (banList (set_sessions _ st)) with (banList st). rewrite Hban.
  simpl. rewrite (bool_decide_false (ip = "")) by done. simpl.
  rewrite bool_decide_true by lia.
  unfold sock_write.
  change (is_ended _ _) with
    (is_ended (length (sessions st))
       (set_sessions (sessions st ++ [new_session ip now]) st)).
  by rewrite is_ended_snoc.
Qed.

(** X6: between two resets the counter counts every connection that
    comes with an address, admitted or turned away, and nothing else; so
    with the counter at zero and no ban entry, the next connection is
    answered ERROR_GLOBAL_DOS exactly when a hundred or more addressed
    connections came before it, and the reset of the timer puts the counter
    back to zero. *)
Theorem global_counter_counts st evs ip now :
  banList st = ∅ → globalRequestCount st = 0 →
  Forall (λ e, is_reset e = false) evs → ip ≠ "" →
  let k := Z.of_nat (length (filter (λ e, addressed e = true) evs)) in
  let st1 := run st evs in
  let st2 := step st1 (Connection (Some ip) now) in
  globalRequestCount st1 = k
  ∧ (MAX_CONN_PER_SECOND ≤ k →
       wire st2 = wire st1 ++ [{| w_conn := length (sessions st1); w_afterEnd := false;
                                  w_resp := buildResponse ERROR_GLOBAL_DOS None |}])
  ∧ (k < MAX_CONN_PER_SECOND →
       wire st2 = wire st1
       ∨ wire st2 = wire st1 ++ [{| w_conn := length (sessions st1); w_afterEnd := false;
                                    w_resp := buildResponse ERROR_RATE_LIMIT None |}])
  ∧ globalRequestCount (step st2 CounterReset) = 0.
Proof.
  intros Hb H0 Hall Hip k st1 st2.
  assert (Hk : globalRequestCount st1 = k).
  { subst st1 k. rewrite run_counter by done. lia. }
  assert (Hban : is_banned (banList st1) ip now = false).
  { apply not_banned_absent. subst st1. by rewrite run_banList, Hb, lookup_empty. }
  split_and!; [done| | |done].
  - intros Hge. apply onConnection_global_reject; [done..|lia].
  - intros Hlt. apply connection_passes_global; [done..|lia].
Qed.

Lemma step_clientRecord_dom st e :
  dom (clientRecord st) ⊆ dom (clientRecord (step st e)).
Proof.
  destruct e as [ip now|c|c data|c msg|c reply|c| |now]; simpl.
  - unfold onConnection, autoBan, push, prune.
    repeat case_match; unfold_prims; simpl; rewrite ?dom_insert_L; set_solver.
  - unfold onTimeout. by repeat case_match.
  - unfold onData. by repeat case_match.
  - unfold afterDelay. by repeat case_match.
  - unfold afterGeo. destruct (sessions st !! c) as [s|]; [|done].
    destruct (awaitingGeo s); [done|].
    destruct (getGeo _ _ _) as [g st'] eqn:Hg.
    apply getGeo_frame in Hg as (_ & Hc & _).
    destruct g; simpl; by rewrite Hc.
  - unfold onError. by repeat case_match.
  - done.
  - by destruct (sweep_frame now st) as (_ & _ & -> & _).
Qed.

(** X7: no event deletes the rate window of a source: once an address has
    an entry in [clientRecord] it has one for as long as the server runs
    (the sweep only visits [peerRecord]). *)
Theorem rate_windows_never_deleted st evs :
  dom (clientRecord st) ⊆ dom (clientRecord (run st evs)).
Proof.
  revert st. induction evs as [|e evs IH]; intros st; simpl; [done|].
  etrans; [apply (step_clientRecord_dom st e)|apply IH].
Qed.

(** ** The payload buffer *)

Lemma string_length_app (a b : string) :
  String.length (a +:+ b) = (String.length a + String.length b)%nat.
Proof. induction a as [|x a IH]; simpl; [done|]. by rewrite IH. Qed.

Lemma string_app_assoc (a b c : string) : (a +:+ b) +:+ c = a +:+ (b +:+ c).
Proof.
  induction a as [|x a IH]; [done|].
  change (String x ((a +:+ b) +:+ c) = String x (a +:+ (b +:+ c))). by f_equal.
Qed.

Lemma string_app_nil_r (a : string) : a +:+ "" = a.
Proof.
  induction a as [|x a IH]; [done|].
  change (String x (a +:+ "") = String x a). by f_equal.
Qed.

Lemma run_cons st e evs : run st (e :: evs) = run (step st e) evs.
Proof. done. Qed.

(** A chunk that takes the buffer past the cap. *)
Lemma onData_oversized st c s data :
  sessions st !! c = Some s → listening s = true →
  (MAX_PAYLOAD < String.length (dataBuffer s +:+ data))%nat →
  sessions (step st (SockData c data)) !! c = Some (mark_ended (append_data data s))
  ∧ responses c (step st (SockData c data))
    = responses c st ++ [buildResponse ERROR_PAYLOAD_TOO_LARGE None]
  ∧ peerRecord (step st (SockData c data)) = peerRecord st.
Proof.
  intros Hs Hl Hlen. split_and!.
  - simpl. unfold onData. rewrite Hs, Hl, bool_decide_true by done.
    unfold_prims. simpl. by rewrite !list_lookup_alter_eq, Hs.
  - simpl. unfold onData. rewrite Hs, Hl, bool_decide_true by done.
    by eapply responses_snoc.
  - simpl. unfold onData. by rewrite Hs, Hl, bool_decide_true by done.
Qed.

(** A chunk that keeps the buffer within the cap. *)
Lemma onData_buffered st c s data :
  sessions st !! c = Some s → listening s = true →
  (String.length (dataBuffer s +:+ data) ≤ MAX_PAYLOAD)%nat →
  sessions (step st (SockData c data)) !! c
    = Some (set_delayed (S (delayed s)) (append_data data s))
  ∧ wire (step st (SockData c data)) = wire st
  ∧ peerRecord (step st (SockData c data)) = peerRecord st.
Proof.
  intros Hs Hl Hlen. simpl. unfold onData.
  rewrite Hs, Hl, bool_decide_false by lia.
  unfold_prims. simpl. by rewrite !list_lookup_alter_eq, Hs.
Qed.

Lemma oversized_run chunks : ∀ st c s,
  sessions st !! c = Some s → listening s = true →
  (MAX_PAYLOAD < String.length (dataBuffer s))%nat →
  responses c (run st (SockData c <$> chunks))
    = responses c st ++ replicate (length chunks) (buildResponse ERROR_PAYLOAD_TOO_LARGE None)
  ∧ delayed <$> sessions (run st (SockData c <$> chunks)) !! c = Some (delayed s)
  ∧ peerRecord (run st (SockData c <$> chunks)) = peerRecord st.
Proof.
  induction chunks as [|d chunks IH]; intros st c s Hs Hl Hlen.
  - simpl. rewrite app_nil_r, Hs. done.
  - assert (Hlen' : (MAX_PAYLOAD < String.length (dataBuffer s +:+ d))%nat).
    { rewrite string_length_app. lia. }
    destruct (onData_oversized st c s d Hs Hl Hlen') as (Hs' & Hr' & Hp').
    destruct (IH (step st (SockData c d)) c _ Hs' Hl Hlen') as (Hr & Hd & Hp).
    rewrite fmap_cons, run_cons.
    rewrite Hr, Hr', Hd, Hp, Hp', <- app_assoc. done.
Qed.

(** X8: once the buffer of a connection is longer than 2048 characters it
    stays so: every further chunk is answered ERROR_PAYLOAD_TOO_LARGE at
    once, no data callback is left waiting to parse the buffer, and the
    registry is not touched. *)
Theorem oversized_stays_rejected st c s chunks :
  sessions st !! c = Some s → listening s = true →
  (MAX_PAYLOAD < String.length (dataBuffer s))%nat →
  let st' := run st (SockData c <$> chunks) in
  responses c st'
    = responses c st ++ replicate (length chunks) (buildResponse ERROR_PAYLOAD_TOO_LARGE None)
  ∧ delayed <$> sessions st' !! c = Some (delayed s)
  ∧ peerRecord st' = peerRecord st.
Proof. intros Hs Hl Hlen. by apply oversized_run. Qed.

Lemma buffered_run chunks : ∀ st c s,
  sessions st !! c = Some s → listening s = true →
  (String.length (dataBuffer s +:+ foldr String.append "" chunks) ≤ MAX_PAYLOAD)%nat →
  wire (run st (SockData c <$> chunks)) = wire st
  ∧ peerRecord (run st (SockData c <$> chunks)) = peerRecord st
  ∧ ∃ s', sessions (run st (SockData c <$> chunks)) !! c = Some s'
          ∧ dataBuffer s' = dataBuffer s +:+ foldr String.append "" chunks
          ∧ delayed s' = (delayed s + length chunks)%nat
          ∧ ended s' = ended s ∧ awaitingGeo s' = awaitingGeo s.
Proof.
  induction chunks as [|d chunks IH]; intros st c s Hs Hl Hlen.
  - simpl. split_and!; [done..|]. exists s. rewrite string_app_nil_r.
    split_and!; [done..|lia|done|done].
  - change (foldr String.append "" (d :: chunks))
      with (d +:+ foldr String.append "" chunks) in *.
    rewrite <- string_app_assoc in Hlen.
    assert (Hd : (String.length (dataBuffer s +:+ d) ≤ MAX_PAYLOAD)%nat).
    { pose proof Hlen as Hlen2. rewrite string_length_app in Hlen2. lia. }
    destruct (onData_buffered st c s d Hs Hl Hd) as (Hs' & Hw' & Hp').
    destruct (IH (step st (SockData c d)) c _ Hs' Hl Hlen)
      as (Hw & Hp & s' & Hs'' & Hb & Hdel & He & Ha).
    rewrite fmap_cons, run_cons.
    split_and!; [by rewrite Hw|by rewrite Hp|].
    exists s'. simpl in Hb, Hdel, He, Ha. rewrite string_app_assoc in Hb.
    split_and!; [done|done|simpl; lia|done|done].
Qed.

(** X9: chunks that together keep the buffer within 2048 characters are
    appended to it in the order of arrival; none of them is answered, and
    each of them leaves one data callback waiting in the flood delay (so a
    request sent in n chunks is dispatched n times). *)
Theorem chunks_accumulate st c s chunks :
  sessions st !! c = Some s → listening s = true →
  (String.length (dataBuffer s +:+ foldr String.append "" chunks) ≤ MAX_PAYLOAD)%nat →
  let st' := run st (SockData c <$> chunks) in
  wire st' = wire st
  ∧ peerRecord st' = peerRecord st
  ∧ ∃ s', sessions st' !! c = Some s'
          ∧ dataBuffer s' = dataBuffer s +:+ foldr String.append "" chunks
          ∧ delayed s' = (delayed s + length chunks)%nat
          ∧ ended s' = ended s ∧ awaitingGeo s' = awaitingGeo s.
Proof. intros Hs Hl Hlen. by apply buffered_run. Qed.

(** ** Unregister and heartbeat *)

(** X10: an unregister deletes the record of the caller's address and no
    other, answers SUCCESS_UNREGISTER and ends the socket; for an address
    without a record it answers the same and leaves registry and logs as
    they are, so a second unregister changes nothing. *)
Theorem unregister_removes_own_record st c s n :
  sessions st !! c = Some s → delayed s = S n →
  let ip := remoteAddress s in
  let st' := step st (FloodDelayElapsed c (Message (Some "unregister"))) in
  pr_get ip (peerRecord st') = None
  ∧ (∀ ip', ip' ≠ ip → pr_get ip' (peerRecord st') = pr_get ip' (peerRecord st))
  ∧ wire st' = wire st ++ [{| w_conn := c; w_afterEnd := ended s;
                              w_resp := buildResponse SUCCESS_UNREGISTER None |}]
  ∧ is_ended c st' = true
  ∧ (pr_get ip (peerRecord st) = None →
       peerRecord st' = peerRecord st ∧ logs st' = logs st).
Proof.
  intros Hs Hd ip st'. subst ip st'. simpl. unfold afterDelay. rewrite Hs, Hd.
  rewrite decide_False by done. rewrite decide_True by done.
  change (peerRecord (update_session _ _ st)) with (peerRecord st).
  destruct (pr_get (remoteAddress s) (peerRecord st)) as [info|] eqn:Hg;
    unfold_prims; unfold is_ended; simpl;
    rewrite !list_lookup_alter_eq, Hs; simpl.
  - split_and!; [|intros ip' Hne|done..].
    + rewrite pr_get_delete. by rewrite decide_True.
    + rewrite pr_get_delete. by rewrite decide_False.
  - done.
Qed.

Lemma pr_set_keys_known ip v (pr : PeerTable) :
  is_Some (pr_get ip pr) → (pr_set ip v pr).*1 = pr.*1.
Proof. intros [w Hw]. by rewrite pr_set_keys, Hw. Qed.

(** X11: a heartbeat from an address with a record sets [lastSeen] to the
    time its connection was accepted and keeps coordinate, [firstSeen],
    every other record and the order of the table; from an address without
    a record it creates none.  Both answer SUCCESS_HEARTBEAT. *)
Theorem heartbeat_touches_lastSeen_only st c s n :
  sessions st !! c = Some s → delayed s = S n →
  let ip := remoteAddress s in
  let st' := step st (FloodDelayElapsed c (Message (Some "heartbeat"))) in
  pr_get ip (peerRecord st')
    = (λ info, {| geo := geo info; firstSeen := firstSeen info;
                  lastSeen := connectedAt s |}) <$> pr_get ip (peerRecord st)
  ∧ (∀ ip', ip' ≠ ip → pr_get ip' (peerRecord st') = pr_get ip' (peerRecord st))
  ∧ (peerRecord st').*1 = (peerRecord st).*1
  ∧ wire st' = wire st ++ [{| w_conn := c; w_afterEnd := ended s;
                              w_resp := buildResponse SUCCESS_HEARTBEAT None |}]
  ∧ is_ended c st' = true.
Proof.
  intros Hs Hd ip st'. subst ip st'. simpl. unfold afterDelay. rewrite Hs, Hd.
  rewrite !decide_False by done. rewrite decide_True by done.
  change (peerRecord (update_session _ _ st)) with (peerRecord st).
  destruct (pr_get (remoteAddress s) (peerRecord st)) as [info|] eqn:Hg;
    unfold_prims; unfold is_ended; simpl;
    rewrite !list_lookup_alter_eq, Hs; simpl.
  - split_and!; [|intros ip' Hne| |done..].
    + by rewrite pr_get_set_eq.
    + by rewrite pr_get_set_ne.
    + apply pr_set_keys_known. by rewrite Hg.
  - by rewrite Hg.
Qed.

(** ** Who changes which record *)

(** X12: the events of a connection change no record but the one of the
    address the connection came from; only the dispatch of a request, the
    return of a lookup and the sweep change the registry at all. *)
Theorem registry_change_is_local st e ip' :
  (∀ c s, event_conn st e = Some c → sessions st !! c = Some s → remoteAddress s ≠ ip') →
  (∀ now, e ≠ Sweep now) →
  pr_get ip' (peerRecord (step st e)) = pr_get ip' (peerRecord st).
Proof.
  intros Hother Hsweep.
  destruct (step_registry st e) as [e|c s info Hs Hg|c s reply g Hs Hg|c s info Hs Hg|c s Hs|now].
  - done.
  - apply pr_get_set_ne. by apply (Hother c s).
  - apply pr_get_set_ne. by apply (Hother c s).
  - apply pr_get_set_ne. by apply (Hother c s).
  - rewrite pr_get_delete. rewrite decide_False; [done|].
    intros ->. by apply (Hother c s).
  - by destruct (Hsweep now).
Qed.

Lemma keeps_origin_refl l : keeps_origin l l.
Proof. intros c s Hs. by exists s. Qed.

Lemma keeps_origin_trans l1 l2 l3 :
  keeps_origin l1 l2 → keeps_origin l2 l3 → keeps_origin l1 l3.
Proof.
  intros H12 H23 c s Hs.
  destruct (H12 c s Hs) as (s2 & Hs2 & Ha2 & Ht2).
  destruct (H23 c s2 Hs2) as (s3 & Hs3 & Ha3 & Ht3).
  exists s3. split_and!; [done|congruence|congruence].
Qed.

Lemma keeps_origin_alter f i l :
  (∀ s, remoteAddress (f s) = remoteAddress s ∧ connectedAt (f s) = connectedAt s) →
  keeps_origin l (alter f i l).
Proof.
  intros Hf c s Hs. rewrite list_lookup_alter.
  destruct (decide (i = c)) as [->|Hne]; [|by exists s].
  rewrite Hs. exists (f s). split; [done|apply Hf].
Qed.

Lemma keeps_origin_snoc l s : keeps_origin l (l ++ [s]).
Proof. intros c s0 Hs. exists s0. split; [|done]. by apply lookup_app_l_Some. Qed.

Ltac origin_kept :=
  repeat first
    [ apply keeps_origin_refl
    | apply keeps_origin_snoc
    | eapply keeps_origin_trans; [|apply keeps_origin_alter; by intros []] ].

(** A session keeps its address and the time it was accepted. *)
Lemma step_keeps_origin st e : keeps_origin (sessions st) (sessions (step st e)).
Proof.
  destruct e as [ip now|c|c data|c msg|c reply|c| |now]; simpl.
  - unfold onConnection, autoBan, push, prune.
    repeat case_match; unfold_prims; simpl; origin_kept.
  - unfold onTimeout. repeat case_match; unfold_prims; simpl; origin_kept.
  - unfold onData. repeat case_match; unfold_prims; simpl; origin_kept.
  - unfold afterDelay, registerPeer. repeat case_match; unfold_prims; simpl; origin_kept.
  - unfold afterGeo. destruct (sessions st !! c) as [s|]; [|origin_kept].
    destruct (awaitingGeo s) as [|n]; [origin_kept|].
    destruct (getGeo _ _ _) as [g st0] eqn:Hg.
    apply getGeo_frame in Hg as (_ & _ & _ & _ & Hss & _). simpl in Hss.
    destruct g; unfold registerPeer; unfold_prims; simpl; rewrite Hss; origin_kept.
  - unfold onError. repeat case_match; unfold_prims; simpl; origin_kept.
  - origin_kept.
  - destruct (sweep_frame now st) as (_ & -> & _). origin_kept.
Qed.

Lemma connection_time_step st e ip t :
  connection_time st ip t → connection_time (step st e) ip t.
Proof.
  intros (c & s & Hs & Ha & Ht).
  destruct (step_keeps_origin st e c s Hs) as (s' & Hs' & Ha' & Ht').
  exists c, s'. split_and!; [done|congruence|congruence].
Qed.

Lemma reachable_from_own_connection st : reachable st → from_own_connection st.
Proof.
  revert st. apply (reachable_ind from_own_connection).
  { intros ip info Hin. by apply elem_of_nil in Hin. }
  intros st e _ IH ip info Hin.
  assert (Hold : ∀ ip info, (ip, info) ∈ peerRecord st →
            connection_time (step st e) ip (firstSeen info)
            ∧ connection_time (step st e) ip (lastSeen info)).
  { intros k i Hk. destruct (IH k i Hk). split; by apply connection_time_step. }
  assert (Hnew : ∀ c s, sessions st !! c = Some s →
            connection_time (step st e) (remoteAddress s) (connectedAt s)).
  { intros c s Hs. apply connection_time_step. by exists c, s. }
  revert Hin.
  destruct (step_registry st e) as [e|c s i0 Hs Hg|c s reply g Hs Hg|c s i0 Hs Hg|c s Hs|now];
    intros Hin.
  - by apply Hold.
  - apply elem_of_pr_set in Hin as [[= -> ->]|Hin]; [|by apply Hold].
    simpl. split; by apply (Hnew c).
  - apply elem_of_pr_set in Hin as [[= -> ->]|Hin]; [|by apply Hold].
    simpl. split; by apply (Hnew c).
  - apply elem_of_pr_set in Hin as [[= -> ->]|Hin]; [|by apply Hold].
    simpl. split; [|by apply (Hnew c)].
    apply pr_get_Some_elem in Hg. by destruct (Hold _ _ Hg).
  - apply list_elem_of_filter in Hin as [_ Hin]. by apply Hold.
  - apply list_elem_of_filter in Hin as [_ Hin]. by apply Hold.
Qed.

(** X13: in every state the server can reach, each record of the registry
    was written by connections from the very address it is stored under:
    its [firstSeen] and its [lastSeen] are times at which a connection from
    that address was accepted.  No client can register, refresh or
    backdate the record of another address. *)
Theorem records_come_from_own_address (evs : list Event) :
  let st := run init evs in
  ∀ ip info, pr_get ip (peerRecord st) = Some info →
    (∃ c s, sessions st !! c = Some s ∧ remoteAddress s = ip
            ∧ connectedAt s = firstSeen info)
    ∧ (∃ c s, sessions st !! c = Some s ∧ remoteAddress s = ip
              ∧ connectedAt s = lastSeen info).
Proof.
  intros st ip info Hg. apply pr_get_Some_elem in Hg.
  assert (Hst : reachable st) by by exists evs.
  exact (reachable_from_own_connection st Hst ip info Hg).
Qed.

(** ** The register response *)

Lemma rankable_keys_sublist (pr : PeerTable) : (entry_ip <$> rankable pr) `sublist_of` pr.*1.
Proof.
  unfold rankable.
  assert (Hk : entry_ip <$> ((λ e : string * PeerInfo,
                 {| entry_ip := e.1; entry_geo := geo e.2 |}) <$> pr) = pr.*1).
  { rewrite <- list_fmap_compose. by apply list_fmap_ext. }
  rewrite <- Hk. apply fmap_sublist, sublist_filter.
Qed.

Lemma nearbyPeers_NoDup g (pr : PeerTable) :
  NoDup pr.*1 → NoDup (entry_ip <$> nearbyPeers g pr).
Proof.
  intros Hnd. unfold nearbyPeers.
  eapply sublist_NoDup; [|apply fmap_sublist, sublist_take].
  rewrite Array_sort_perm.
  eapply sublist_NoDup; [exact Hnd|apply rankable_keys_sublist].
Qed.

(** X14: a response that carries a peers list has status 1000, names the
    address of the connection it is written to as [yourIP], lists no
    address twice, and lists only addresses that have a record at that
    moment, each with the coordinate stored in its record. *)
Theorem register_response_wellformed evs e w body :
  let st := run init evs in
  wire (step st e) = wire st ++ [w] →
  extraBody (w_resp w) = Some body →
  statusCode (w_resp w) = 1000
  ∧ (∃ s', sessions (step st e) !! w_conn w = Some s' ∧ yourIP body = remoteAddress s')
  ∧ NoDup (entry_ip <$> peers body)
  ∧ (∀ p, p ∈ peers body →
       ∃ info, pr_get (entry_ip p) (peerRecord (step st e)) = Some info
               ∧ geo info = entry_geo p).
Proof.
  intros st Hw Hbody.
  assert (Hst : reachable (step st e)) by (apply reachable_step; by exists evs).
  pose proof (reachable_NoDup _ Hst) as Hnd.
  destruct (step_written st e) as [Hsame|(c & r & _ & Hw' & Hkind)].
  { rewrite Hsame in Hw. apply (f_equal length) in Hw.
    rewrite length_app in Hw. simpl in Hw. lia. }
  rewrite Hw in Hw'. apply app_inj_tail in Hw' as [_ ->]. simpl in *.
  destruct Hkind as [[Hnone _]|(s' & g & Hs' & -> & Hg)]; [congruence|].
  injection Hbody as <-. simpl.
  split_and!; [done|by exists s'|by apply nearbyPeers_NoDup|].
  intros p Hp. apply elem_of_nearbyPeers in Hp as (info & Hin & Hgeo & _).
  exists info. split; [by apply pr_get_elem_NoDup|done].
Qed.

Lemma caller_rankable ip now g (pr : PeerTable) :
  nonzero (latitude g) && nonzero (longitude g) = true →
  {| entry_ip := ip; entry_geo := g |}
  ∈ rankable (pr_set ip {| geo := g; firstSeen := now; lastSeen := now |} pr).
Proof.
  intros Hnz. unfold rankable. apply list_elem_of_filter. split; [done|].
  apply list_elem_of_fmap.
  exists (ip, {| geo := g; firstSeen := now; lastSeen := now |}). split; [done|].
  apply pr_get_Some_elem, pr_get_set_eq.
Qed.

Lemma nearbyPeers_all g (pr : PeerTable) :
  (length (rankable pr) ≤ RESPONSE_PEER_LIMIT)%nat → nearbyPeers g pr ≡ₚ rankable pr.
Proof.
  intros Hlen. unfold nearbyPeers.
  rewrite take_ge; [apply Array_sort_perm|].
  by rewrite Array_sort_perm.
Qed.

(** X15: when the registry, with the caller's record written, holds at
    most [RESPONSE_PEER_LIMIT] records with a non-zero coordinate, the
    peers list is a rearrangement of all of them; a caller with a non-zero
    coordinate is then in its own list. *)
Theorem few_peers_all_listed ip now g (pr : PeerTable) :
  let pr' := pr_set ip {| geo := g; firstSeen := now; lastSeen := now |} pr in
  (length (rankable pr') ≤ RESPONSE_PEER_LIMIT)%nat →
  nearbyPeers g pr' ≡ₚ rankable pr'
  ∧ (nonzero (latitude g) && nonzero (longitude g) = true →
       {| entry_ip := ip; entry_geo := g |} ∈ nearbyPeers g pr').
Proof.
  intros pr' Hlen. pose proof (nearbyPeers_all g pr' Hlen) as Hperm.
  split; [done|]. intros Hnz. rewrite Hperm. by apply caller_rankable.
Qed.

(** ** Log rotation *)

Section LogRotationFacts.
Import LogRotation.

Lemma LogFile_eqb_eq f g : LogFile_eqb f g = true ↔ f = g.
Proof. destruct f, g; simpl; split; congruence. Qed.

Lemma LogFile_eqb_refl f : LogFile_eqb f f = true.
Proof. by apply LogFile_eqb_eq. Qed.

Lemma LogFile_eqb_neq f g : f ≠ g → LogFile_eqb f g = false.
Proof. intros Hne. destruct (LogFile_eqb f g) eqn:E; [|done]. by apply LogFile_eqb_eq in E. Qed.

Lemma basename_inj f g : basename f = basename g → f = g.
Proof. destruct f, g; simpl; congruence. Qed.

Lemma archived_snoc file rows row :
  archived file (rows ++ [row])
  = archived file rows +:+ (if String.eqb row.1 (basename file) then row.2 else "").
Proof.
  unfold archived. induction rows as [|r rows IH].
  - simpl. destruct (String.eqb _ _); [by rewrite string_app_nil_r|done].
  - change (foldr ?f "" ((r :: rows) ++ [row])) with (f r (foldr f "" (rows ++ [row]))).
    change (foldr ?f "" (r :: rows)) with (f r (foldr f "" rows)).
    cbv beta. rewrite IH. destruct (String.eqb r.1 _); [|done].
    by rewrite string_app_assoc.
Qed.

(** One call: the file is within the threshold afterwards, every other
    file is as it was, and a row that was added is over the threshold. *)
Lemma appendLog_bounded ok file msg ls :
  size (content (appendLog ok file msg ls) file) ≤ LOG_THRESHOLD
  ∧ (∀ f, f ≠ file → content (appendLog ok file msg ls) f = content ls f)
  ∧ (∀ row, row ∈ logsTable (appendLog ok file msg ls) →
       row ∈ logsTable ls ∨ LOG_THRESHOLD < size row.2)
  ∧ (LOG_THRESHOLD < size (content ls file +:+ msg) →
       content (appendLog ok file msg ls) file = ""
       ∧ (ok = false → logsTable (appendLog ok file msg ls) = logsTable ls
                       ∧ dbLog (appendLog ok file msg ls) = dbLog ls ++ [file]))
  ∧ (size (content ls file +:+ msg) ≤ LOG_THRESHOLD →
       content (appendLog ok file msg ls) file = content ls file +:+ msg
       ∧ logsTable (appendLog ok file msg ls) = logsTable ls
       ∧ dbLog (appendLog ok file msg ls) = dbLog ls).
Proof.
  unfold appendLog. cbv zeta.
  change (content (writeFile file ?d ls) file)
    with (if LogFile_eqb file file then d else content ls file).
  rewrite LogFile_eqb_refl.
  case_bool_decide as Hbig.
  - split_and!.
    + simpl. rewrite LogFile_eqb_refl. unfold size, LOG_THRESHOLD. simpl. lia.
    + intros f Hne. destruct ok; simpl; by rewrite (LogFile_eqb_neq f file Hne).
    + intros row Hrow. destruct ok; simpl in Hrow; [|by left].
      rewrite LogFile_eqb_refl in Hrow.
      apply elem_of_app in Hrow as [Hrow|Hrow]; [by left|right].
      apply list_elem_of_singleton in Hrow as ->. done.
    + intros _. split; [simpl; by rewrite LogFile_eqb_refl|].
      by intros ->.
    + intros Hsmall. lia.
  - split_and!.
    + simpl. rewrite LogFile_eqb_refl. lia.
    + intros f Hne. simpl. by rewrite (LogFile_eqb_neq f file Hne).
    + intros row Hrow. by left.
    + intros Hb. lia.
    + intros _. simpl. by rewrite LogFile_eqb_refl.
Qed.

Lemma appendAll_bounded ops : ∀ ls,
  (∀ f, size (content ls f) ≤ LOG_THRESHOLD) →
  (∀ f, size (content (appendAll ops ls) f) ≤ LOG_THRESHOLD)
  ∧ (∀ row, row ∈ logsTable (appendAll ops ls) →
       row ∈ logsTable ls ∨ LOG_THRESHOLD < size row.2).
Proof.
  induction ops as [|[[ok file] msg] ops IH]; intros ls Hls; simpl.
  - split; [done|]. intros row Hrow. by left.
  - destruct (appendLog_bounded ok file msg ls) as (H1 & H2 & H3 & _).
    destruct (IH (appendLog ok file msg ls)) as [IH1 IH2].
    { intros f. destruct (LogFile_eqb f file) eqn:E.
      - apply LogFile_eqb_eq in E as ->. done.
      - rewrite H2; [apply Hls|]. intros ->. by rewrite LogFile_eqb_refl in E. }
    split; [done|]. intros row Hrow.
    destruct (IH2 row Hrow) as [Hold|?]; [|by right]. by apply H3.
Qed.

(** With a successful offload, what the table holds of a file followed
    by the content of the file grows by exactly the appended line. *)
Lemma appendLog_conserves file file' msg ls :
  archived file (logsTable (appendLog true file' msg ls))
    +:+ content (appendLog true file' msg ls) file
  = (archived file (logsTable ls) +:+ content ls file)
      +:+ (if LogFile_eqb file' file then msg else "").
Proof.
  unfold appendLog. cbv zeta.
  change (content (writeFile file' ?d ls) file')
    with (if LogFile_eqb file' file' then d else content ls file').
  rewrite LogFile_eqb_refl.
  assert (Hdec : file' = file ∨ file' ≠ file).
  { destruct (LogFile_eqb file' file) eqn:E; [left; by apply LogFile_eqb_eq|right].
    intros ->. by rewrite LogFile_eqb_refl in E. }
  destruct Hdec as [->|Hne].
  - rewrite LogFile_eqb_refl. case_bool_decide; simpl; rewrite ?LogFile_eqb_refl.
    + rewrite archived_snoc. simpl. rewrite String.eqb_refl.
      by rewrite string_app_nil_r, string_app_assoc.
    + by rewrite string_app_assoc.
  - rewrite (LogFile_eqb_neq file' file Hne), string_app_nil_r.
    assert (Hne' : file ≠ file') by congruence.
    case_bool_decide; simpl; rewrite ?(LogFile_eqb_neq file file' Hne'); [|done].
    rewrite archived_snoc. simpl.
    destruct (String.eqb (basename file') (basename file)) eqn:E.
    + apply String.eqb_eq, basename_inj in E. done.
    + by rewrite string_app_nil_r.
Qed.

Lemma appendAll_conserves ops : ∀ ls file,
  Forall (λ op : bool * LogFile * string, op.1.1 = true) ops →
  archived file (logsTable (appendAll ops ls)) +:+ content (appendAll ops ls) file
  = (archived file (logsTable ls) +:+ content ls file) +:+ appended file ops.
Proof.
  induction ops as [|[[ok file'] msg] ops IH]; intros ls file Hok.
  - simpl. by rewrite string_app_nil_r.
  - apply Forall_cons in Hok as [Hok1 Hok]. simpl in Hok1. subst ok.
    change (appendAll ((true, file', msg) :: ops) ls)
      with (appendAll ops (appendLog true file' msg ls)).
    rewrite (IH _ file Hok), appendLog_conserves.
    change (appended file ((true, file', msg) :: ops))
      with (if LogFile_eqb file' file then msg +:+ appended file ops
            else appended file ops).
    destruct (LogFile_eqb file' file).
    + by rewrite string_app_assoc.
    + by rewrite string_app_nil_r.
Qed.
End LogRotationFacts.

(** X18: [appendLog] keeps every log file at or below [LOG_THRESHOLD]
    bytes, and every row it hands to the table is a segment over that
    size; a call that takes a file over the threshold leaves it empty
    whether the offload went through or threw, and if it threw the segment
    is in neither the file nor the table, only a line in [db.log] tells. *)
Theorem log_files_stay_bounded ops ls :
  (∀ f, LogRotation.size (LogRotation.content ls f) ≤ LogRotation.LOG_THRESHOLD) →
  let ls' := LogRotation.appendAll ops ls in
  (∀ f, LogRotation.size (LogRotation.content ls' f) ≤ LogRotation.LOG_THRESHOLD)
  ∧ (∀ row, row ∈ LogRotation.logsTable ls' →
       row ∈ LogRotation.logsTable ls
       ∨ LogRotation.LOG_THRESHOLD < LogRotation.size row.2)
  ∧ (∀ ok file msg,
       LogRotation.LOG_THRESHOLD
       < LogRotation.size (LogRotation.content ls' file +:+ msg) →
       LogRotation.content (LogRotation.appendLog ok file msg ls') file = ""
       ∧ (ok = false →
            LogRotation.logsTable (LogRotation.appendLog ok file msg ls')
            = LogRotation.logsTable ls'
            ∧ LogRotation.dbLog (LogRotation.appendLog ok file msg ls')
              = LogRotation.dbLog ls' ++ [file])).
Proof.
  intros Hls ls'. destruct (appendAll_bounded ops ls Hls) as [H1 H2].
  split_and!; [done..|].
  intros ok file msg Hbig.
  by destruct (appendLog_bounded ok file msg ls') as (_ & _ & _ & H & _); auto.
Qed.

(** X19: as long as every offload goes through, no logged line is lost
    and none is duplicated or reordered: for each log file, the segments
    the table holds of it, in the order of insertion, followed by the
    present content of the file, are what they were before followed by the
    lines appended to that file, in the order of the calls. *)
Theorem log_rotation_loses_nothing ops ls file :
  Forall (λ op : bool * LogFile * string, op.1.1 = true) ops →
  let ls' := LogRotation.appendAll ops ls in
  LogRotation.archived file (LogRotation.logsTable ls') +:+ LogRotation.content ls' file
  = (LogRotation.archived file (LogRotation.logsTable ls) +:+ LogRotation.content ls file)
      +:+ LogRotation.appended file ops.
Proof. intros Hok ls'. by apply appendAll_conserves. Qed.

(** ** The sweep, once more *)

Lemma filter_ext_in {A} (P Q : A → Prop) `{!∀ x, Decision (P x), !∀ x, Decision (Q x)}
    (l : list A) :
  (∀ x, x ∈ l → P x ↔ Q x) → filter P l = filter Q l.
Proof.
  induction l as [|x l IH]; intros Hext; [done|].
  rewrite !filter_cons.
  assert (Hx : P x ↔ Q x) by (apply Hext, list_elem_of_here).
  rewrite IH by (intros y Hy; by apply Hext, list_elem_of_further).
  destruct (decide (P x)), (decide (Q x)); tauto.
Qed.

(** With one record per address, the keys the sweep deletes are the keys
    of the stale records. *)
Lemma sweep_filter_stale now (pr : PeerTable) :
  NoDup pr.*1 →
  filter (λ e, e.1 ∉ staleKeys now pr) pr = filter (λ e, ¬ stale now e) pr.
Proof.
  intros Hnd. apply filter_ext_in. intros [k info] Hin. simpl.
  unfold staleKeys. split; intros H Hs; apply H.
  - apply list_elem_of_fmap. exists (k, info). split; [done|].
    by apply list_elem_of_filter.
  - apply list_elem_of_fmap in Hs as ([k' info'] & Hk & Hs). simpl in Hk. subst k'.
    apply list_elem_of_filter in Hs as [Hs Hin'].
    pose proof (pr_get_elem_NoDup _ _ _ Hnd Hin) as H1.
    pose proof (pr_get_elem_NoDup _ _ _ Hnd Hin') as H2.
    rewrite H1 in H2. by injection H2 as ->.
Qed.

(** X20: in every reachable state the sweep leaves the records that are
    not stale, in the order they had; it touches nothing but the registry
    and the log, and a second sweep at the same time removes nothing
    more. *)
Theorem sweep_keeps_fresh_records_in_order evs now :
  let st := run init evs in
  let st' := step st (Sweep now) in
  peerRecord st' = filter (λ e, ¬ stale now e) (peerRecord st)
  ∧ peerRecord st' `sublist_of` peerRecord st
  ∧ peerRecord (step st' (Sweep now)) = peerRecord st'
  ∧ wire st' = wire st ∧ sessions st' = sessions st
  ∧ clientRecord st' = clientRecord st ∧ banList st' = banList st
  ∧ globalRequestCount st' = globalRequestCount st.
Proof.
  intros st st'.
  assert (Hst : reachable st) by by exists evs.
  pose proof (reachable_NoDup st Hst) as Hnd.
  assert (Hpr : peerRecord st' = filter (λ e, ¬ stale now e) (peerRecord st)).
  { subst st'. simpl. unfold sweep. rewrite sweep_fold. by apply sweep_filter_stale. }
  destruct (sweep_frame now st) as (Hw & Hs & Hc & Hn).
  split_and!; [done| |..|done|done|done|apply sweep_banList|done].
  - rewrite Hpr. apply sublist_filter.
  - pose proof (reachable_NoDup st' (reachable_step st _ Hst)) as Hnd'.
    simpl. unfold sweep. rewrite sweep_fold, (sweep_filter_stale now _ Hnd'), Hpr.
    rewrite list_filter_filter. apply list_filter_iff. tauto.
Qed.

(** ** Requests that ask for nothing *)

(** X21: a request that does not parse, or whose action is missing or is
    not one of register, unregister and heartbeat, changes neither the
    registry nor any rate window; it is answered ERROR_INVALID_JSON in the
    first case and ERROR_UNKNOWN_ACTION in the others, and the socket is
    ended. *)
Theorem unknown_request_changes_nothing st c s n :
  sessions st !! c = Some s → delayed s = S n →
  (let st' := step st (FloodDelayElapsed c ParseError) in
   wire st' = wire st ++ [{| w_conn := c; w_afterEnd := ended s;
                             w_resp := buildResponse ERROR_INVALID_JSON None |}]
   ∧ peerRecord st' = peerRecord st ∧ clientRecord st' = clientRecord st
   ∧ is_ended c st' = true)
  ∧ (∀ action, action ≠ Some "register" → action ≠ Some "unregister" →
       action ≠ Some "heartbeat" →
       let st' := step st (FloodDelayElapsed c (Message action)) in
       wire st' = wire st ++ [{| w_conn := c; w_afterEnd := ended s;
                                 w_resp := buildResponse ERROR_UNKNOWN_ACTION None |}]
       ∧ peerRecord st' = peerRecord st ∧ clientRecord st' = clientRecord st
       ∧ logs st' = logs st
       ∧ is_ended c st' = true).
Proof.
  intros Hs Hd. split.
  - simpl. unfold afterDelay. rewrite Hs, Hd.
    unfold_prims. unfold is_ended. simpl.
    by rewrite !list_lookup_alter_eq, Hs.
  - intros action H1 H2 H3. simpl. unfold afterDelay. rewrite Hs, Hd.
    rewrite !decide_False by done.
    unfold_prims. unfold is_ended. simpl.
    by rewrite !list_lookup_alter_eq, Hs.
Qed.

End Tracker.

(** * The theorems at concrete inputs *)

(** The statements above hold for every [Math] object.  The instances
    below are taken on the sample runs and states; where a run needs a
    [Math] object it is [sampleMath]. *)
#[local] Existing Instance sampleMath.

Lemma C3_antipodal_peer_listed_first_witness :
  antipodalValues
  ∧ (let caller := {| latitude := -8; longitude := -179 |} in
     let peer := {| latitude := 8; longitude := 1 |} in
     responses 1 (run init antipodalPair)
     = [buildResponse SUCCESS_REGISTER
          (Some {| yourIP := "8.8.8.8";
                   peers := [{| entry_ip := "9.9.9.9"; entry_geo := peer |};
                             {| entry_ip := "8.8.8.8"; entry_geo := caller |}] |})]
     ∧ distance peer caller = nan
     ∧ distance caller caller = 0%float
     ∧ (distance peer caller <=? distance caller caller)%float = false
     ∧ byDistance caller {| entry_ip := "8.8.8.8"; entry_geo := caller |}
                         {| entry_ip := "9.9.9.9"; entry_geo := peer |} = nan).
Proof.
  assert (H : antipodalValues) by (vm_compute; repeat split).
  split; [exact H|]. exact (C3_antipodal_peer_listed_first H).
Defined.

Lemma C4_sixth_request_rate_limited_witness :
  let st5 := run init (Connection (Some "1.2.3.4") <$> [0; 1; 2; 3; 4]) in
  let st6 := step st5 (Connection (Some "1.2.3.4") 5) in
  wire st5 = []
  ∧ sessions st5 = (λ t, attach (new_session "1.2.3.4" t)) <$> [0; 1; 2; 3; 4]
  ∧ window_of (clientRecord st5) "1.2.3.4" = [0; 1; 2; 3; 4]
  ∧ wire st6 = [{| w_conn := 5; w_afterEnd := false;
                   w_resp := buildResponse ERROR_RATE_LIMIT None |}]
  ∧ statusCode (buildResponse ERROR_RATE_LIMIT None) = 2002
  ∧ window_of (clientRecord st6) "1.2.3.4" = [0; 1; 2; 3; 4; 5].
Proof.
  apply (C4_sixth_request_rate_limited init "1.2.3.4" 0 0 1 2 3 4 5).
  - done.
  - reflexivity.
  - vm_compute. discriminate.
  - reflexivity.
  - repeat constructor; vm_compute; congruence.
Defined.

Lemma C5_geo_failure_leaves_registry_witness :
  let st1 := step oneRequest (FloodDelayElapsed 0 (Message (Some "register"))) in
  let st2 := step st1 (GeoSettled 0 GeoThrows) in
  (peerRecord st1 = [] ∧ wire st1 = [])
  ∧ wire st2 = [{| w_conn := 0; w_afterEnd := false;
                   w_resp := buildResponse ERROR_GEO_LOOKUP_FAILED None |}]
  ∧ statusCode (buildResponse ERROR_GEO_LOOKUP_FAILED None) = 2006
  ∧ peerRecord st2 = []
  ∧ pr_get "8.8.8.8" (peerRecord st2) = None
  ∧ (∀ st' s' n', sessions st' !! 0%nat = Some s' → remoteAddress s' = "8.8.8.8" →
       awaitingGeo s' = S n' →
       peerRecord (step st' (GeoSettled 0 GeoThrows)) = peerRecord st'
       ∧ wire (step st' (GeoSettled 0 GeoThrows)) =
           wire st' ++ [{| w_conn := 0; w_afterEnd := ended s';
                           w_resp := buildResponse ERROR_GEO_LOOKUP_FAILED None |}]).
Proof.
  apply (C5_geo_failure_leaves_registry oneRequest 0 publicSession 0 GeoThrows);
    reflexivity.
Defined.

Lemma C6_register_known_peer_witness :
  let st' := step secondRequest (FloodDelayElapsed 0 (Message (Some "register"))) in
  pr_get "8.8.8.8" (peerRecord st')
    = Some {| geo := {| latitude := 10; longitude := 10 |}; firstSeen := 7; lastSeen := 7 |}
  ∧ awaitingGeo <$> sessions st' !! 0%nat = Some 0%nat
  ∧ logs st' = [(REQUEST_LOG, "Registered peer: 8.8.8.8")]
  ∧ wire st' =
      [{| w_conn := 0; w_afterEnd := false;
          w_resp := buildResponse SUCCESS_REGISTER
            (Some {| yourIP := "8.8.8.8";
                     peers := nearbyPeers {| latitude := 10; longitude := 10 |}
                                (peerRecord st') |}) |}].
Proof.
  apply (C6_register_known_peer secondRequest 0 publicSession 0 knownPeer); reflexivity.
Defined.

Lemma C10_zero_coordinate_is_failure_witness :
  let st1 := step oneRequest (FloodDelayElapsed 0 (Message (Some "register"))) in
  let st2 := step st1 (GeoSettled 0 (GeoData (Some 0%float) None)) in
  let st2' := step st1 (GeoSettled 0 GeoThrows) in
  (∀ st0, getGeo "8.8.8.8" (GeoData (Some 0%float) None) st0 = (None, st0))
  ∧ wire st2 = [{| w_conn := 0; w_afterEnd := false;
                   w_resp := buildResponse ERROR_GEO_LOOKUP_FAILED None |}]
  ∧ statusCode (buildResponse ERROR_GEO_LOOKUP_FAILED None) = 2006
  ∧ peerRecord st2 = []
  ∧ wire st2' = wire st2 ∧ peerRecord st2' = peerRecord st2 ∧ sessions st2' = sessions st2
  ∧ logs st2' = logs st2 ++ [(ERROR_LOG, "Geo lookup failed for 8.8.8.8")].
Proof.
  apply (C10_zero_coordinate_is_failure oneRequest 0 publicSession 0 (Some 0%float) None);
    reflexivity.
Defined.

Lemma peers_list_filtered_and_bounded_witness :
  let body := {| yourIP := "8.8.8.8";
                 peers := nearbyPeers (geo knownPeer)
                            (pr_set "8.8.8.8"
                               {| geo := geo knownPeer; firstSeen := 7; lastSeen := 7 |}
                               (peerRecord threePeers)) |} in
  let st' := step threePeers (FloodDelayElapsed 0 (Message (Some "register"))) in
  Forall (λ p, nonzero (latitude (entry_geo p)) && nonzero (longitude (entry_geo p)) = true)
    (peers body)
  ∧ peers body ⊆ rankable (peerRecord st')
  ∧ length (peers body) = (RESPONSE_PEER_LIMIT `min` length (rankable (peerRecord st')))%nat
  ∧ RESPONSE_PEER_LIMIT = 20%nat.
Proof.
  intros body st'.
  apply (peers_list_filtered_and_bounded threePeers
           (FloodDelayElapsed 0 (Message (Some "register")))
           {| w_conn := 0; w_afterEnd := false;
              w_resp := buildResponse SUCCESS_REGISTER (Some body) |} body);
    reflexivity.
Defined.

Lemma C7_stale_peer_swept_witness :
  let st1 := step registered (Sweep 300001) in
  pr_get "8.8.8.8" (peerRecord st1) = None
  ∧ (∀ ip', pr_get ip' (peerRecord st1)
            = match pr_get ip' (peerRecord registered) with
              | Some i => if bool_decide (PEER_TIMEOUT_MS < 300001 - lastSeen i) then None
                          else Some i
              | None => None
              end)
  ∧ (∀ evs, no_register "8.8.8.8" st1 evs = true →
       pr_get "8.8.8.8" (peerRecord (run st1 evs)) = None
       ∧ ("8.8.8.8" ∉ entry_ip <$> rankable (peerRecord (run st1 evs)))
       ∧ (∀ w, w ∈ drop (length (wire st1)) (wire (run st1 evs)) → not_listed "8.8.8.8" w)).
Proof.
  apply (C7_stale_peer_swept registered 300001 "8.8.8.8"
           {| geo := {| latitude := 10; longitude := 10 |}; firstSeen := 0; lastSeen := 0 |}).
  - unfold registered. by eexists.
  - reflexivity.
  - reflexivity.
Defined.

(** C2 (fails as specified): it is not the case that every connection sees
    at most one call of [sock.write].  A request that arrives in two chunks
    runs the data handler twice, and each run writes ERROR_INVALID_JSON;
    the second call is made on the socket the first run has ended. *)
Lemma C2_second_write_after_end :
  ¬ (∀ evs c, (length (responses c (run init evs)) ≤ 1)%nat)
  ∧ wire (run init twoChunks) =
      [{| w_conn := 0; w_afterEnd := false;
          w_resp := buildResponse ERROR_INVALID_JSON None |};
       {| w_conn := 0; w_afterEnd := true;
          w_resp := buildResponse ERROR_INVALID_JSON None |}].
Proof.
  split; [|by vm_compute].
  intros H. specialize (H twoChunks 0%nat). vm_compute in H. lia.
Qed.

Lemma session_isolation_witness :
  sessions (step oneRequest (Connection (Some "9.9.9.9") 8)) !! 0%nat
    = sessions oneRequest !! 0%nat
  ∧ responses 0 (step oneRequest (Connection (Some "9.9.9.9") 8)) = responses 0 oneRequest.
Proof.
  apply (session_isolation oneRequest (Connection (Some "9.9.9.9") 8) 0).
  vm_compute. congruence.
Defined.

Lemma window_after_connection_witness :
  let st' := step sixConnections (Connection (Some "1.2.3.4") 60003) in
  Forall (λ ts, 60003 - ts < WINDOW_MS) (window_of (clientRecord st') "1.2.3.4")
  ∧ last (window_of (clientRecord st') "1.2.3.4") = Some 60003
  ∧ (length (window_of (clientRecord st') "1.2.3.4")
     ≤ S (length (window_of (clientRecord sixConnections) "1.2.3.4")))%nat
  ∧ (∀ ip', ip' ≠ "1.2.3.4" → clientRecord st' !! ip' = clientRecord sixConnections !! ip').
Proof.
  apply (window_after_connection sixConnections "1.2.3.4" 60003).
  - done.
  - reflexivity.
  - vm_compute. reflexivity.
Defined.

Lemma quiet_window_readmits_witness :
  let st' := step sixConnections (Connection (Some "1.2.3.4") 60005) in
  window_of (clientRecord st') "1.2.3.4" = [60005]
  ∧ wire st' = wire sixConnections
  ∧ sessions st' = sessions sixConnections ++ [attach (new_session "1.2.3.4" 60005)].
Proof.
  apply (quiet_window_readmits sixConnections "1.2.3.4" 60005).
  - done.
  - reflexivity.
  - vm_compute. reflexivity.
  - vm_compute. repeat constructor; discriminate.
Defined.

Lemma global_limit_rejects_witness :
  let st := set_globalRequestCount 100 init in
  let st' := step st (Connection (Some "1.2.3.4") 5) in
  wire st' = wire st ++ [{| w_conn := length (sessions st); w_afterEnd := false;
                            w_resp := buildResponse ERROR_GLOBAL_DOS None |}]
  ∧ sessions st' = sessions st ++ [mark_ended (new_session "1.2.3.4" 5)]
  ∧ globalRequestCount st' = globalRequestCount st + 1
  ∧ clientRecord st' = clientRecord st
  ∧ peerRecord st' = peerRecord st
  ∧ banList st' = banList st.
Proof.
  apply (global_limit_rejects (set_globalRequestCount 100 init) "1.2.3.4" 5).
  - done.
  - reflexivity.
  - vm_compute. discriminate.
Defined.

Lemma global_counter_counts_witness :
  let evs := [Connection (Some "1.2.3.4") 0; Connection None 1; SockTimeout 0;
              Connection (Some "9.9.9.9") 2; Sweep 3] in
  let k := Z.of_nat (length (filter (λ e, addressed e = true) evs)) in
  let st1 := run init evs in
  let st2 := step st1 (Connection (Some "1.2.3.4") 4) in
  globalRequestCount st1 = k
  ∧ (MAX_CONN_PER_SECOND ≤ k →
       wire st2 = wire st1 ++ [{| w_conn := length (sessions st1); w_afterEnd := false;
                                  w_resp := buildResponse ERROR_GLOBAL_DOS None |}])
  ∧ (k < MAX_CONN_PER_SECOND →
       wire st2 = wire st1
       ∨ wire st2 = wire st1 ++ [{| w_conn := length (sessions st1); w_afterEnd := false;
                                    w_resp := buildResponse ERROR_RATE_LIMIT None |}])
  ∧ globalRequestCount (step st2 CounterReset) = 0.
Proof.
  apply (global_counter_counts init
           [Connection (Some "1.2.3.4") 0; Connection None 1; SockTimeout 0;
            Connection (Some "9.9.9.9") 2; Sweep 3] "1.2.3.4" 4).
  - reflexivity.
  - reflexivity.
  - repeat constructor.
  - done.
Defined.

Lemma oversized_stays_rejected_witness :
  let st' := run oversized (SockData 0 <$> ["x"; ""; "{}"]) in
  responses 0 st'
    = responses 0 oversized ++ replicate 3 (buildResponse ERROR_PAYLOAD_TOO_LARGE None)
  ∧ delayed <$> sessions st' !! 0%nat = Some 0%nat
  ∧ peerRecord st' = peerRecord oversized.
Proof.
  apply (oversized_stays_rejected oversized 0
           (mark_ended (append_data (payload 2049) (attach (new_session "1.2.3.4" 5))))
           ["x"; ""; "{}"]).
  - by vm_compute.
  - reflexivity.
  - vm_compute. lia.
Defined.

Lemma chunks_accumulate_witness :
  let st' := run oneRequest (SockData 0 <$> ["ab"; "cd"]) in
  wire st' = wire oneRequest
  ∧ peerRecord st' = peerRecord oneRequest
  ∧ ∃ s', sessions st' !! 0%nat = Some s'
          ∧ dataBuffer s' = dataBuffer publicSession +:+ foldr String.append "" ["ab"; "cd"]
          ∧ delayed s' = (delayed publicSession + length ["ab"; "cd"])%nat
          ∧ ended s' = ended publicSession ∧ awaitingGeo s' = awaitingGeo publicSession.
Proof.
  apply (chunks_accumulate oneRequest 0 publicSession ["ab"; "cd"]).
  - reflexivity.
  - reflexivity.
  - vm_compute. lia.
Defined.

Lemma unregister_removes_own_record_witness :
  let ip := remoteAddress publicSession in
  let st' := step threePeers (FloodDelayElapsed 0 (Message (Some "unregister"))) in
  pr_get ip (peerRecord st') = None
  ∧ (∀ ip', ip' ≠ ip → pr_get ip' (peerRecord st') = pr_get ip' (peerRecord threePeers))
  ∧ wire st' = wire threePeers ++ [{| w_conn := 0; w_afterEnd := ended publicSession;
                                      w_resp := buildResponse SUCCESS_UNREGISTER None |}]
  ∧ is_ended 0 st' = true
  ∧ (pr_get ip (peerRecord threePeers) = None →
       peerRecord st' = peerRecord threePeers ∧ logs st' = logs threePeers).
Proof.
  apply (unregister_removes_own_record threePeers 0 publicSession 0); reflexivity.
Defined.

Lemma heartbeat_touches_lastSeen_only_witness :
  let ip := remoteAddress publicSession in
  let st' := step threePeers (FloodDelayElapsed 0 (Message (Some "heartbeat"))) in
  pr_get ip (peerRecord st')
    = (λ info, {| geo := geo info; firstSeen := firstSeen info;
                  lastSeen := connectedAt publicSession |})
        <$> pr_get ip (peerRecord threePeers)
  ∧ (∀ ip', ip' ≠ ip → pr_get ip' (peerRecord st') = pr_get ip' (peerRecord threePeers))
  ∧ (peerRecord st').*1 = (peerRecord threePeers).*1
  ∧ wire st' = wire threePeers ++ [{| w_conn := 0; w_afterEnd := ended publicSession;
                                      w_resp := buildResponse SUCCESS_HEARTBEAT None |}]
  ∧ is_ended 0 st' = true.
Proof.
  apply (heartbeat_touches_lastSeen_only threePeers 0 publicSession 0); reflexivity.
Defined.

Lemma registry_change_is_local_witness :
  pr_get "9.9.9.9" (peerRecord (step threePeers (FloodDelayElapsed 0 (Message (Some "unregister")))))
  = pr_get "9.9.9.9" (peerRecord threePeers).
Proof.
  apply (registry_change_is_local threePeers
           (FloodDelayElapsed 0 (Message (Some "unregister"))) "9.9.9.9").
  - intros c s Hc Hs. vm_compute in Hc. injection Hc as <-.
    vm_compute in Hs. injection Hs as <-. vm_compute. congruence.
  - intros now. discriminate.
Defined.

Lemma records_come_from_own_address_witness :
  let info := {| geo := {| latitude := 10; longitude := 10 |};
                 firstSeen := 0; lastSeen := 0 |} in
  pr_get "8.8.8.8" (peerRecord registered) = Some info
  ∧ (∃ c s, sessions registered !! c = Some s ∧ remoteAddress s = "8.8.8.8"
            ∧ connectedAt s = firstSeen info)
  ∧ (∃ c s, sessions registered !! c = Some s ∧ remoteAddress s = "8.8.8.8"
            ∧ connectedAt s = lastSeen info).
Proof.
  intros info.
  assert (Hg : pr_get "8.8.8.8" (peerRecord registered) = Some info) by reflexivity.
  split; [exact Hg|].
  exact (records_come_from_own_address
           [Connection (Some "8.8.8.8") 0; SockData 0 "{}";
            FloodDelayElapsed 0 (Message (Some "register"));
            GeoSettled 0 (GeoData (Some 10%float) (Some 10%float));
            Connection (Some "9.9.9.9") 300000; SockData 1 "{}"]
           "8.8.8.8" info Hg).
Defined.

Lemma register_response_wellformed_witness :
  let evs := [Connection (Some "8.8.8.8") 0; SockData 0 "{}";
              FloodDelayElapsed 0 (Message (Some "register"))] in
  let e := GeoSettled 0 (GeoData (Some 10%float) (Some 10%float)) in
  let body := {| yourIP := "8.8.8.8";
                 peers := [{| entry_ip := "8.8.8.8";
                              entry_geo := {| latitude := 10; longitude := 10 |} |}] |} in
  let w := {| w_conn := 0; w_afterEnd := false;
              w_resp := buildResponse SUCCESS_REGISTER (Some body) |} in
  let st := run init evs in
  statusCode (w_resp w) = 1000
  ∧ (∃ s', sessions (step st e) !! w_conn w = Some s' ∧ yourIP body = remoteAddress s')
  ∧ NoDup (entry_ip <$> peers body)
  ∧ (∀ p, p ∈ peers body →
       ∃ info, pr_get (entry_ip p) (peerRecord (step st e)) = Some info
               ∧ geo info = entry_geo p).
Proof.
  apply (register_response_wellformed
           [Connection (Some "8.8.8.8") 0; SockData 0 "{}";
            FloodDelayElapsed 0 (Message (Some "register"))]
           (GeoSettled 0 (GeoData (Some 10%float) (Some 10%float)))).
  - by vm_compute.
  - reflexivity.
Defined.

Lemma few_peers_all_listed_witness :
  let g := {| latitude := 10; longitude := 10 |} in
  let pr' := pr_set "8.8.8.8" {| geo := g; firstSeen := 7; lastSeen := 7 |}
               (peerRecord threePeers) in
  nearbyPeers g pr' ≡ₚ rankable pr'
  ∧ (nonzero (latitude g) && nonzero (longitude g) = true →
       {| entry_ip := "8.8.8.8"; entry_geo := g |} ∈ nearbyPeers g pr').
Proof.
  apply (few_peers_all_listed "8.8.8.8" 7 {| latitude := 10; longitude := 10 |}
           (peerRecord threePeers)).
  vm_compute. lia.
Defined.

Lemma log_files_stay_bounded_witness :
  let ls' := LogRotation.appendAll
               [(true, ERROR_LOG, "UE: boom"); (false, REQUEST_LOG, "Registered peer: 1.2.3.4")]
               noLogs in
  (∀ f, LogRotation.size (LogRotation.content ls' f) ≤ LogRotation.LOG_THRESHOLD)
  ∧ (∀ row, row ∈ LogRotation.logsTable ls' →
       row ∈ LogRotation.logsTable noLogs
       ∨ LogRotation.LOG_THRESHOLD < LogRotation.size row.2)
  ∧ (∀ ok file msg,
       LogRotation.LOG_THRESHOLD
       < LogRotation.size (LogRotation.content ls' file +:+ msg) →
       LogRotation.content (LogRotation.appendLog ok file msg ls') file = ""
       ∧ (ok = false →
            LogRotation.logsTable (LogRotation.appendLog ok file msg ls')
            = LogRotation.logsTable ls'
            ∧ LogRotation.dbLog (LogRotation.appendLog ok file msg ls')
              = LogRotation.dbLog ls' ++ [file])).
Proof.
  apply (log_files_stay_bounded
           [(true, ERROR_LOG, "UE: boom"); (false, REQUEST_LOG, "Registered peer: 1.2.3.4")]
           noLogs).
  intros f. vm_compute. discriminate.
Defined.

Lemma log_rotation_loses_nothing_witness :
  let ops := [(true, ERROR_LOG, "a"); (true, REQUEST_LOG, "b"); (true, ERROR_LOG, "c")] in
  let ls' := LogRotation.appendAll ops noLogs in
  LogRotation.archived ERROR_LOG (LogRotation.logsTable ls')
    +:+ LogRotation.content ls' ERROR_LOG
  = (LogRotation.archived ERROR_LOG (LogRotation.logsTable noLogs)
       +:+ LogRotation.content noLogs ERROR_LOG)
      +:+ LogRotation.appended ERROR_LOG ops.
Proof.
  apply (log_rotation_loses_nothing
           [(true, ERROR_LOG, "a"); (true, REQUEST_LOG, "b"); (true, ERROR_LOG, "c")]
           noLogs ERROR_LOG).
  repeat constructor.
Defined.

Lemma unknown_request_changes_nothing_witness :
  (let st' := step threePeers (FloodDelayElapsed 0 ParseError) in
   wire st' = wire threePeers ++ [{| w_conn := 0; w_afterEnd := ended publicSession;
                                     w_resp := buildResponse ERROR_INVALID_JSON None |}]
   ∧ peerRecord st' = peerRecord threePeers ∧ clientRecord st' = clientRecord threePeers
   ∧ is_ended 0 st' = true)
  ∧ (∀ action, action ≠ Some "register" → action ≠ Some "unregister" →
       action ≠ Some "heartbeat" →
       let st' := step threePeers (FloodDelayElapsed 0 (Message action)) in
       wire st' = wire threePeers ++ [{| w_conn := 0; w_afterEnd := ended publicSession;
                                         w_resp := buildResponse ERROR_UNKNOWN_ACTION None |}]
       ∧ peerRecord st' = peerRecord threePeers ∧ clientRecord st' = clientRecord threePeers
       ∧ logs st' = logs threePeers
       ∧ is_ended 0 st' = true).
Proof.
  apply (unknown_request_changes_nothing threePeers 0 publicSession 0); reflexivity.
Defined.
